(** * Chart encoder of [tools/midi_to_txt.py]

    A shallow embedding of [midi_to_chart]: event pairing, time
    quantization, row expansion and serialization, followed by the
    properties of the encoder.

    Python integers are unbounded, so ticks, notes, velocities and row
    indices are [Z].  The pending-note dictionary [active] is a [gmap Z Z];
    the list [notes] and the chart are lists.  Exceptions are explicit. *)

From Stdlib Require Import ZArith Lia Ascii.
From stdpp Require Import gmap list strings pretty.

Local Open Scope Z_scope.
Set Warnings "-clear-no-such-hyp".

(** ** Exceptions and the error monad *)

Inductive exn : Type :=
| ZeroDivisionError
| IndexError
| ValueError.

Inductive result (A : Type) : Type :=
| Ok (a : A)
| Raise (e : exn).

Arguments Ok {A} a.
Arguments Raise {A} e.

#[global] Instance exn_eq_dec : EqDecision exn.
Proof. solve_decision. Defined.

#[global] Instance result_eq_dec {A : Type} `{EqDecision A} :
  EqDecision (result A).
Proof. solve_decision. Defined.

#[global] Instance result_ret : MRet result := fun A a => Ok a.

#[global] Instance result_bind : MBind result := fun A B k r =>
  match r with
  | Ok a => k a
  | Raise e => Raise e
  end.

#[global] Instance result_fmap : FMap result := fun A B f r =>
  match r with
  | Ok a => Ok (f a)
  | Raise e => Raise e
  end.

(** [a // b] on Python integers: floor division, raising on a zero divisor.
    [Z.div] rounds towards minus infinity for either sign of the divisor. *)
Definition floordiv (a b : Z) : result Z :=
  if decide (b = 0) then Raise ZeroDivisionError else Ok (a `div` b).

(** ** The MIDI source

    What [mido] exposes of a message: its type, its delta time and, for the
    two note messages, note and velocity.  Every other message type (meta
    messages, control changes, ...) only contributes its delta time. *)

Inductive Msg : Type :=
| note_on (note velocity time : Z)
| note_off (note velocity time : Z)
| other_msg (time : Z).

Definition msg_time (m : Msg) : Z :=
  match m with
  | note_on _ _ t | note_off _ _ t | other_msg t => t
  end.

Record MidiFile : Type := {
  ticks_per_beat : Z;
  tracks : list (list Msg)
}.

(** An element of [notes]: the tuple [(start_tick, end_tick, note)]. *)
Definition NoteInterval : Type := (Z * Z * Z)%type.

Definition start_tick (iv : NoteInterval) : Z := iv.1.1.
Definition end_tick (iv : NoteInterval) : Z := iv.1.2.
Definition iv_note (iv : NoteInterval) : Z := iv.2.

(** ** Event pairing (lines 24-36) *)

(** The variables the two loops mutate: [active], [notes] and, within a
    track, [abs_time]. *)
Record PairState : Type := {
  active : gmap Z Z;
  notes : list NoteInterval
}.

(** Closing branch, shared by [note_off] and zero-velocity [note_on]. *)
Definition close_note (st : PairState) (note abs_time : Z) : PairState :=
  match active st !! note with
  | Some start =>
      {| active := delete note (active st);
         notes := notes st ++ [(start, abs_time, note)] |}
  | None => st
  end.

(** One iteration of the inner loop. *)
Definition pair_msg (acc : PairState * Z) (msg : Msg) : PairState * Z :=
  let (st, t) := acc in
  let abs_time := t + msg_time msg in
  match msg with
  | note_on note velocity _ =>
      if decide (velocity > 0) then
        ({| active := <[note := abs_time]> (active st); notes := notes st |},
         abs_time)
      else if decide (velocity = 0) then (close_note st note abs_time, abs_time)
      else (st, abs_time)
  | note_off note _ _ => (close_note st note abs_time, abs_time)
  | other_msg _ => (st, abs_time)
  end.

(** One iteration of the outer loop: [abs_time] restarts at 0, [active] and
    [notes] are carried over. *)
Definition pair_track (st : PairState) (track : list Msg) : PairState :=
  (foldl pair_msg (st, 0) track).1.

Definition init_state : PairState := {| active := ∅; notes := [] |}.

Definition pair_tracks (trs : list (list Msg)) : PairState :=
  foldl pair_track init_state trs.

(** The pooled interval list of a file. *)
Definition paired (trs : list (list Msg)) : list NoteInterval :=
  notes (pair_tracks trs).

(** Pairing one track on its own, from an empty pending map. *)
Definition pair_alone (track : list Msg) : PairState :=
  pair_track init_state track.

(** ** Time quantization (lines 55-56)

    The source has no function of its own for it: the step of a tick is the
    expression [tick // ticks_per_step]. *)
Definition quantize (tick ticks_per_step : Z) : result Z :=
  floordiv tick ticks_per_step.

(** ** Row expansion (lines 42-67) *)

(** [l[i]] position resolution on a Python list of length [len]: a negative
    index counts from the end, anything outside raises [IndexError]. *)
Definition py_index (len : nat) (i : Z) : result nat :=
  if decide (0 <= i < Z.of_nat len) then Ok (Z.to_nat i)
  else if decide (- Z.of_nat len <= i < 0) then Ok (Z.to_nat (i + Z.of_nat len))
  else Raise IndexError.

(** [chart[row][lane] = v]. *)
Definition set_cell (chart : list (list Z)) (row : Z) (lane : nat) (v : Z)
  : result (list (list Z)) :=
  r ← py_index (length chart) row;
  match chart !! r with
  | Some cells =>
      l ← py_index (length cells) (Z.of_nat lane);
      Ok (<[r := <[l := v]> cells]> chart)
  | None => Raise IndexError
  end.

(** [lane_notes.index(note)]: position of the first equal element. *)
Fixpoint index (l : list Z) (x : Z) : result nat :=
  match l with
  | [] => Raise ValueError
  | y :: l' => if decide (y = x) then Ok 0%nat else S <$> index l' x
  end.

(** [range(a, b)]. *)
Definition range (a b : Z) : list Z := seqZ a (b - a).

(** A [for] loop whose body may raise. *)
Fixpoint for_each {A S : Type} (body : S -> A -> result S) (s : S) (l : list A)
  : result S :=
  match l with
  | [] => Ok s
  | x :: l' => s' ← body s x; for_each body s' l'
  end.

(** Cell codes. *)
Definition NONE : Z := 0.
Definition TAIL : Z := 1.
Definition HEAD : Z := 2.

(** Body of the loop over rows (lines 63-67). *)
Definition paint_row (num_rows start_row rows_per_step : Z) (lane : nat)
    (chart : list (list Z)) (row : Z) : result (list (list Z)) :=
  if decide (row < num_rows) then
    if decide (row < start_row + rows_per_step) then set_cell chart row lane HEAD
    else set_cell chart row lane TAIL
  else Ok chart.

(** Body of the loop over [notes] (lines 51-67). *)
Definition paint_note (lane_notes : list Z)
    (ticks_per_step rows_per_step num_rows : Z)
    (chart : list (list Z)) (iv : NoteInterval) : result (list (list Z)) :=
  if bool_decide (iv_note iv ∈ lane_notes) then
    lane ← index lane_notes (iv_note iv);
    start_step ← quantize (start_tick iv) ticks_per_step;
    end_step ← quantize (end_tick iv) ticks_per_step;
    let start_row := start_step * rows_per_step in
    let end_row := end_step * rows_per_step in
    for_each (paint_row num_rows start_row rows_per_step lane) chart
             (range start_row end_row)
  else Ok chart.

(** [max(...)] over a list of integers; the empty case raises. *)
Definition py_max (l : list Z) : result Z :=
  match l with
  | [] => Raise ValueError
  | x :: l' => Ok (foldl Z.max x l')
  end.

Definition empty_chart (num_rows : Z) : list (list Z) :=
  replicate (Z.to_nat num_rows) [NONE; NONE; NONE; NONE].

(** Chart length in rows (lines 43-45). *)
Definition chart_rows (ticks_per_step rows_per_step : Z)
    (ivs : list NoteInterval) : result Z :=
  max_tick ← py_max (end_tick <$> ivs);
  q ← floordiv max_tick ticks_per_step;
  let num_steps := q + 1 in
  Ok (num_steps * rows_per_step).

(** Lines 42-67: size the chart, then paint every interval in list order. *)
Definition build_chart (lane_notes : list Z) (ticks_per_step rows_per_step : Z)
    (ivs : list NoteInterval) : result (list (list Z)) :=
  num_rows ← chart_rows ticks_per_step rows_per_step ivs;
  for_each (paint_note lane_notes ticks_per_step rows_per_step num_rows)
           (empty_chart num_rows) ivs.

(** ** Serialization (lines 70-73) *)

Fixpoint bin_digits (p : positive) : string :=
  match p with
  | xH => "1"
  | xO p' => bin_digits p' +:+ "0"
  | xI p' => bin_digits p' +:+ "1"
  end.

Fixpoint zeros (n : nat) : string :=
  match n with
  | O => EmptyString
  | S n' => "0" +:+ zeros n'
  end.

Definition zero_pad (width : nat) (s : string) : string :=
  zeros (width - String.length s) +:+ s.

(** [f"{val:02b}"]: binary digits, zero-padded after the sign to a total
    width of two characters. *)
Definition format_02b (val : Z) : string :=
  match val with
  | Z0 => zero_pad 2 "0"
  | Zpos p => zero_pad 2 (bin_digits p)
  | Zneg p => "-" +:+ zero_pad 1 (bin_digits p)
  end.

Definition newline : string := String "010"%char EmptyString.

(** The line of a row: the fields of its cells joined with no separator. *)
Definition render_row (row : list Z) : string :=
  String.concat EmptyString (format_02b <$> row).

(** The text written through [f]: one [f.write(line + newline)] per row. *)
Definition serialize (chart : list (list Z)) : string :=
  foldl (fun buf row => buf +:+ (render_row row +:+ newline)) EmptyString chart.

(** ** The encoder (lines 18-73)

    The parsed file stands for [mido.MidiFile(midi_path)].  The world is
    what the function can change: what was printed and the files. *)

Record World : Type := {
  stdout : list string;
  files : gmap string string
}.

Definition print (s : string) (w : World) : World :=
  {| stdout := stdout w ++ [s]; files := files w |}.

(** [open(path, "w")], the writes and the close. *)
Definition write_file (path text : string) (w : World) : World :=
  {| stdout := stdout w; files := <[path := text]> (files w) |}.

Definition default_subdivision : Z := 4.
Definition default_rows_per_step : Z := 4.

Definition midi_to_chart (mid : MidiFile) (output_path : string)
    (lane_notes : list Z) (subdivision rows_per_step : Z) (w : World)
  : World * result () :=
  match floordiv (ticks_per_beat mid) subdivision with
  | Raise e => (w, Raise e)
  | Ok ticks_per_step =>
      match paired (tracks mid) with
      | [] => (print "No notes found" w, Ok ())
      | ivs =>
          match build_chart lane_notes ticks_per_step rows_per_step ivs with
          | Raise e => (w, Raise e)
          | Ok chart => (write_file output_path (serialize chart) w, Ok ())
          end
      end
  end.

(** The call at the end of the script (lines 76-81). *)
Definition script (mid : MidiFile) (w : World) : World * result () :=
  midi_to_chart mid "chart_chorded_v2.txt" [60; 61; 62; 63]
                default_subdivision default_rows_per_step w.

(** ** Line decoding, from the format description

    The reader of the wire format: four 2-bit fields, [00], [01] and [10]
    standing for 0, 1 and 2; [11] is not a code. *)

Definition decode_field (a b : ascii) : option Z :=
  match a, b with
  | "0"%char, "0"%char => Some 0
  | "0"%char, "1"%char => Some 1
  | "1"%char, "0"%char => Some 2
  | _, _ => None
  end.

Fixpoint decode_fields (cs : list ascii) : option (list Z) :=
  match cs with
  | [] => Some []
  | a :: b :: cs' =>
      v ← decode_field a b; vs ← decode_fields cs'; Some (v :: vs)
  | _ => None
  end.

Definition decode_line (line : string) : option (list Z) :=
  decode_fields (String.list_ascii_of_string line).

(** ** Vocabulary of the statements *)

(** A track that, paired on its own, closes every note it opens. *)
Definition leaves_none_pending (track : list Msg) : Prop :=
  active (pair_alone track) = ∅.

(** All the tracks of a file but the last one. *)
Definition but_last (trs : list (list Msg)) : list (list Msg) :=
  take (pred (length trs)) trs.

(** The intervals of the tracks paired one by one, in track order. *)
Definition pooled_alone (trs : list (list Msg)) : list NoteInterval :=
  concat ((fun tr => notes (pair_alone tr)) <$> trs).

(** Tracks do not see each other's pending notes. *)
Definition tracks_independent (trs : list (list Msg)) : Prop :=
  forall iv, iv ∈ paired trs <-> iv ∈ pooled_alone trs.

Definition nonneg_deltas (trs : list (list Msg)) : Prop :=
  Forall (Forall (fun m => 0 <= msg_time m)) trs.

Definition well_ordered (iv : NoteInterval) : Prop :=
  0 <= start_tick iv <= end_tick iv.

(** While a track is scanned alone: the clock is non-negative, every pending
    start lies between 0 and the clock, every interval is well ordered. *)
Definition pair_inv (acc : PairState * Z) : Prop :=
  0 <= acc.2 /\
  map_Forall (fun _ s => 0 <= s <= acc.2) (active acc.1) /\
  Forall well_ordered (notes acc.1).

(** Every row of a chart has its four lanes. *)
Definition well_formed (chart : list (list Z)) : Prop :=
  Forall (fun row => length row = 4%nat) chart.

(** [chart[r][lane]] for a row counted from the top. *)
Definition cell (chart : list (list Z)) (r : Z) (lane : nat) : option Z :=
  if decide (0 <= r) then chart !! Z.to_nat r ≫= (fun row => row !! lane)
  else None.

Definition start_row (ticks_per_step rows_per_step : Z) (iv : NoteInterval)
  : Z := (start_tick iv `div` ticks_per_step) * rows_per_step.

Definition end_row (ticks_per_step rows_per_step : Z) (iv : NoteInterval)
  : Z := (end_tick iv `div` ticks_per_step) * rows_per_step.

(** The code an interval gives to a row of its range. *)
Definition row_code (ticks_per_step rows_per_step : Z) (iv : NoteInterval)
    (r : Z) : Z :=
  if decide (r < start_row ticks_per_step rows_per_step iv + rows_per_step)
  then HEAD else TAIL.

(** The interval is mapped to [lane] and its row range holds [r]. *)
Definition covers (lane_notes : list Z) (ticks_per_step rows_per_step : Z)
    (iv : NoteInterval) (r : Z) (lane : nat) : Prop :=
  index lane_notes (iv_note iv) = Ok lane /\
  start_row ticks_per_step rows_per_step iv <= r
    < end_row ticks_per_step rows_per_step iv.

#[global] Instance covers_dec lane_notes ticks_per_step rows_per_step iv r lane :
  Decision (covers lane_notes ticks_per_step rows_per_step iv r lane).
Proof. unfold covers. apply _. Defined.

(** The row loop's body with the bounds test of line 63 taken out. *)
Definition paint_row_unguarded (start_row rows_per_step : Z) (lane : nat)
    (chart : list (list Z)) (row : Z) : result (list (list Z)) :=
  if decide (row < start_row + rows_per_step) then set_cell chart row lane HEAD
  else set_cell chart row lane TAIL.

(** A cell code: none, tail or head. *)
Definition is_code (v : Z) : Prop := v = NONE \/ v = TAIL \/ v = HEAD.

(** A row of four cell codes. *)
Definition valid_row (row : list Z) : Prop :=
  length row = 4%nat /\ Forall is_code row.

Definition binary_digit (c : ascii) : Prop := c = "0"%char \/ c = "1"%char.

(** The 2-character fields of a line, left to right. *)
Fixpoint fields (cs : list ascii) : list string :=
  match cs with
  | a :: b :: cs' => String a (String b EmptyString) :: fields cs'
  | _ => []
  end.

(** A message that can only open a note or pass time. *)
Definition opens_only (m : Msg) : Prop :=
  match m with
  | note_on _ velocity _ => 0 < velocity
  | note_off _ _ _ => False
  | other_msg _ => True
  end.

Definition nonneg_ticks (iv : NoteInterval) : Prop :=
  0 <= start_tick iv /\ 0 <= end_tick iv.

(** Across tracks: pending starts and interval ticks are never negative. *)
Definition ticks_inv (st : PairState) : Prop :=
  map_Forall (fun _ s => 0 <= s) (active st) /\ Forall nonneg_ticks (notes st).

(** A state with [ns] put in front of its interval list. *)
Definition prepend (ns : list NoteInterval) (st : PairState) : PairState :=
  {| active := active st; notes := ns ++ notes st |}.

(** A zero-velocity [note_on] rewritten as the [note_off] it stands for. *)
Definition as_note_off (m : Msg) : Msg :=
  match m with
  | note_on n v t => if decide (v = 0) then note_off n 0 t else m
  | _ => m
  end.

(** ** Further vocabulary *)

(** A message that takes the opening branch of the pairing loop. *)
Definition is_opener (m : Msg) : bool :=
  match m with
  | note_on _ velocity _ => bool_decide (velocity > 0)
  | _ => false
  end.

(** A message that takes the closing branch of the pairing loop. *)
Definition is_closer (m : Msg) : bool :=
  match m with
  | note_on _ velocity _ => bool_decide (velocity = 0)
  | note_off _ _ _ => true
  | other_msg _ => false
  end.

Definition count_msgs (p : Msg -> bool) (msgs : list Msg) : nat :=
  length (List.filter p msgs).

(** Intervals of one note come one after the other, in list order. *)
Definition same_note_in_sequence (ivs : list NoteInterval) : Prop :=
  forall (i j : nat) (a b : NoteInterval),
    (i < j)%nat -> ivs !! i = Some a -> ivs !! j = Some b ->
    iv_note a = iv_note b -> end_tick a <= start_tick b.

(** While one track is scanned: intervals end by the clock, pending starts
    are not after the clock and not before the end of any interval of their
    note, and the intervals of a note are in sequence. *)
Definition sequence_inv (acc : PairState * Z) : Prop :=
  Forall (fun iv => end_tick iv <= acc.2) (notes acc.1) /\
  map_Forall (fun n s =>
    s <= acc.2 /\
    Forall (fun iv => iv_note iv = n -> end_tick iv <= s) (notes acc.1))
    (active acc.1) /\
  same_note_in_sequence (notes acc.1).

(** What one interval makes of the value [v] of the cell [(r, lane)]. *)
Definition overlay (lane_notes : list Z) (ticks_per_step rows_per_step : Z)
    (r : Z) (lane : nat) (v : Z) (iv : NoteInterval) : Z :=
  if decide (covers lane_notes ticks_per_step rows_per_step iv r lane)
  then row_code ticks_per_step rows_per_step iv r else v.

(** The cell as the intervals leave it, taken in list order from NONE. *)
Definition expected_cell (lane_notes : list Z)
    (ticks_per_step rows_per_step : Z) (ivs : list NoteInterval)
    (r : Z) (lane : nat) : Z :=
  foldl (overlay lane_notes ticks_per_step rows_per_step r lane) NONE ivs.


(** An interval that the row loop paints on a lane the rows do not have. *)
Definition off_chart_lane (lane_notes : list Z) (ticks_per_step : Z)
    (iv : NoteInterval) : Prop :=
  exists lane : nat,
    index lane_notes (iv_note iv) = Ok lane /\ (4 <= lane)%nat /\
    start_tick iv `div` ticks_per_step < end_tick iv `div` ticks_per_step.

(** * Audio writer of [tools/write_sd_audio.py]

    The functions of the script over an explicit world: the lines waiting
    on standard input and the contents of the device files.  What the
    functions print is not part of the model.  The programs and files
    outside the script ([ffmpeg], the input file, the temporary file) are an
    environment the functions read. *)

Module SdAudio.

Definition SAMPLE_RATE : Z := 46186.
Definition BITS_PER_SAMPLE : Z := 16.
Definition CHANNELS : Z := 1.
Definition SECTOR_SIZE : Z := 512.

Inductive exception : Type :=
| EOFError
| CalledProcessError.

(** How a call ends: it returns, it leaves through [sys.exit], or an
    exception nobody catches goes up. *)
Inductive outcome (A : Type) : Type :=
| Return (a : A)
| SystemExit (code : Z)
| Uncaught (e : exception).

Arguments Return {A} a.
Arguments SystemExit {A} code.
Arguments Uncaught {A} e.

(** A path that cannot be opened, for lack of permission or for any other
    reason, has no entry in [devices]. *)
Record World : Type := {
  stdin : list string;
  devices : gmap string (list Byte.byte)
}.


Definition M (A : Type) : Type := World -> outcome A * World.

Definition ret {A : Type} (a : A) : M A := fun w => (Return a, w).

Definition and_then {A B : Type} (c : M A) (k : A -> M B) : M B := fun w =>
  match c w with
  | (Return a, w') => k a w'
  | (SystemExit code, w') => (SystemExit code, w')
  | (Uncaught e, w') => (Uncaught e, w')
  end.

Definition sys_exit {A : Type} (code : Z) : M A := fun w => (SystemExit code, w).

(** [input(prompt)]: the next line of standard input. *)
Definition input : M string := fun w =>
  match stdin w with
  | [] => (Uncaught EOFError, w)
  | line :: rest => (Return line, {| stdin := rest; devices := devices w |})
  end.

(** [pattern in s] on strings. *)
Fixpoint contains (pattern s : string) : bool :=
  String.prefix pattern s ||
  match s with
  | EmptyString => false
  | String _ s' => contains pattern s'
  end.

(** [l.insert(i, x)]: a negative index counts from the end, and an index
    outside the list is brought back to its nearest end. *)
Definition py_insert {A : Type} (l : list A) (i : Z) (x : A) : list A :=
  let n := Z.of_nat (length l) in
  let k := if decide (i < 0) then Z.max 0 (i + n) else Z.min i n in
  take (Z.to_nat k) l ++ x :: drop (Z.to_nat k) l.

(** [l[a:b]] for indices that are not negative. *)
Definition slice {A : Type} (l : list A) (a b : Z) : list A :=
  take (Z.to_nat (b - a)) (drop (Z.to_nat a) l).

(** ** [convert_audio] (lines 23-72) *)

Definition cmd_base (input_file tmp_path : string) : list string :=
  ["ffmpeg"; "-y"; "-i"; input_file; "-ac"; pretty CHANNELS;
   "-ar"; pretty SAMPLE_RATE; "-sample_fmt"; "s16"; "-f"; "s16le"; tmp_path].

Definition cmd_soxr (input_file tmp_path : string) : list string :=
  py_insert (py_insert (cmd_base input_file tmp_path) (-2) "-af")
            (-2) "aresample=resampler=soxr:precision=28".


(** ** [write_to_device] (lines 75-126) *)

Definition padding_needed (raw_data : list Byte.byte) : Z :=
  (SECTOR_SIZE - Z.of_nat (length raw_data) `mod` SECTOR_SIZE)
    `mod` SECTOR_SIZE.

Definition pad (raw_data : list Byte.byte) : list Byte.byte :=
  if decide (padding_needed raw_data > 0)
  then raw_data ++ replicate (Z.to_nat (padding_needed raw_data)) Byte.x00
  else raw_data.

(** The sector count of line 81, the value the user is told to copy. *)
Definition total_sectors (raw_data : list Byte.byte) : Z :=
  Z.of_nat (length (pad raw_data)) `div` SECTOR_SIZE.

(** A file open for update: its contents and the position of the next
    write. *)
Record File : Type := {
  content : list Byte.byte;
  pos : nat
}.

(** [f.write(chunk)]: the bytes replace those at the position, the file
    growing when they reach past its end. *)
Definition f_write (f : File) (chunk : list Byte.byte) : File :=
  {| content :=
       take (pos f) (content f)
         ++ replicate (pos f - length (content f)) Byte.x00
         ++ chunk ++ drop (pos f + length chunk) (content f);
     pos := pos f + length chunk |}.

(** The [while] loop of lines 104-112, with a bound on its iterations;
    [None] when the bound is reached. *)
Fixpoint write_loop (fuel : nat) (raw_data : list Byte.byte) (total_bytes : Z)
    (f : File) (bytes_written sector : Z) : option (File * Z * Z) :=
  match fuel with
  | O => None
  | S fuel' =>
      if decide (bytes_written < total_bytes) then
        let chunk := slice raw_data bytes_written (bytes_written + SECTOR_SIZE) in
        write_loop fuel' raw_data total_bytes (f_write f chunk)
                   (bytes_written + Z.of_nat (length chunk)) (sector + 1)
      else Some (f, bytes_written, sector)
  end.

(** The function; [None] stands for a write loop that does not end within
    one iteration per byte of data. *)
Definition write_to_device (raw_data : list Byte.byte) (device_path : string)
    (w : World) : option (outcome () * World) :=
  let raw_data := pad raw_data in
  let total_bytes := Z.of_nat (length raw_data) in
  match input w with
  | (Return confirm, w') =>
      if decide (confirm <> "YES") then Some (SystemExit 1, w')
      else
        match devices w' !! device_path with
        | None => Some (SystemExit 1, w')
        | Some old =>
            match write_loop (S (length raw_data)) raw_data total_bytes
                             {| content := old; pos := 0 |} 0 0 with
            | None => None
            | Some (f, _, _) =>
                Some (Return (),
                      {| stdin := stdin w';
                         devices := <[device_path := content f]> (devices w') |})
            end
        end
  | (SystemExit code, w') => Some (SystemExit code, w')
  | (Uncaught e, w') => Some (Uncaught e, w')
  end.

(** ** [validate_device_path] (lines 129-144) *)

Definition dangerous_patterns : list string :=
  ["disk0"; "disk1"; "sda"; "sdb"; "nvme0"].

Definition risk_phrase : string := "I UNDERSTAND THE RISK".

(** The loop over the patterns. *)
Fixpoint confirm_patterns (patterns : list string) (device_path : string)
  : M () :=
  match patterns with
  | [] => ret ()
  | pattern :: rest =>
      if contains pattern device_path then
        and_then input (fun confirm =>
          if decide (confirm <> risk_phrase) then sys_exit 1
          else confirm_patterns rest device_path)
      else confirm_patterns rest device_path
  end.

Definition validate_device_path (device_path : string) : M () :=
  if negb (String.prefix "/dev/" device_path) then sys_exit 1
  else confirm_patterns dangerous_patterns device_path.

(** ** [check_ffmpeg] (lines 147-153) *)


(** ** [main] (lines 156-172) *)


(** ** Vocabulary of the statements *)

(** The patterns of the list that occur in the path. *)
Definition flagged (patterns : list string) (device_path : string)
  : list string :=
  List.filter (fun pattern => contains pattern device_path) patterns.


End SdAudio.

(** * Properties *)

(** ** Event pairing *)

Section Pairing.

Implicit Types (st : PairState) (tr : list Msg) (trs : list (list Msg)).

Lemma close_note_prepend ns st n t :
  close_note (prepend ns st) n t = prepend ns (close_note st n t).
Proof.
  unfold close_note, prepend; simpl.
  destruct (active st !! n); simpl; [|done].
  by rewrite app_assoc.
Qed.

Lemma pair_msg_prepend ns st t m :
  pair_msg (prepend ns st, t) m =
  (prepend ns (pair_msg (st, t) m).1, (pair_msg (st, t) m).2).
Proof.
  destruct m as [n v d|n v d|d]; simpl.
  - repeat case_decide; simpl; try done.
    by rewrite close_note_prepend.
  - by rewrite close_note_prepend.
  - done.
Qed.

Lemma pair_msgs_prepend ns tr : forall st t,
  foldl pair_msg (prepend ns st, t) tr =
  (prepend ns (foldl pair_msg (st, t) tr).1, (foldl pair_msg (st, t) tr).2).
Proof.
  induction tr as [|m tr IH]; intros st t; cbn [foldl]; [done|].
  rewrite pair_msg_prepend.
  destruct (pair_msg (st, t) m) as [st' t'] eqn:E; simpl.
  apply IH.
Qed.

(** A track started with nothing pending appends what it yields alone. *)
Lemma pair_track_fresh st tr :
  active st = ∅ ->
  pair_track st tr =
  {| active := active (pair_alone tr);
     notes := notes st ++ notes (pair_alone tr) |}.
Proof.
  intros Hemp. unfold pair_alone, pair_track.
  replace st with (prepend (notes st) init_state).
  - rewrite pair_msgs_prepend. unfold prepend; simpl.
    by rewrite app_nil_r.
  - destruct st as [a ns]; unfold prepend, init_state; simpl in *.
    subst a. by rewrite app_nil_r.
Qed.

Lemma pair_tracks_snoc trs tr :
  pair_tracks (trs ++ [tr]) = pair_track (pair_tracks trs) tr.
Proof. unfold pair_tracks. by rewrite foldl_app. Qed.

Lemma pooled_alone_snoc trs tr :
  pooled_alone (trs ++ [tr]) = pooled_alone trs ++ notes (pair_alone tr).
Proof.
  unfold pooled_alone. rewrite fmap_app, concat_app; simpl.
  by rewrite app_nil_r.
Qed.

(** When every track closes its notes, nothing is pending between tracks
    and the pooled list is the per-track lists in track order. *)
Lemma pair_tracks_all_closed trs :
  Forall leaves_none_pending trs ->
  pair_tracks trs = {| active := ∅; notes := pooled_alone trs |}.
Proof.
  induction trs as [|tr trs IH] using rev_ind; intros Hall; [done|].
  apply Forall_app in Hall as [Hts Ht]. apply Forall_inv in Ht.
  rewrite pair_tracks_snoc, IH by done.
  rewrite pair_track_fresh by done. simpl.
  unfold leaves_none_pending in Ht. by rewrite Ht, pooled_alone_snoc.
Qed.

Lemma but_last_snoc trs tr : but_last (trs ++ [tr]) = trs.
Proof.
  unfold but_last. rewrite length_app; simpl.
  replace (pred (length trs + 1)) with (length trs) by lia.
  by rewrite take_app_length.
Qed.

Lemma paired_closed_but_last trs :
  Forall leaves_none_pending (but_last trs) ->
  paired trs = pooled_alone trs.
Proof.
  destruct trs as [|tr trs _] using rev_ind; [done|].
  rewrite but_last_snoc. intros Hall. unfold paired.
  rewrite pair_tracks_snoc, pair_tracks_all_closed by done.
  rewrite pair_track_fresh by done. simpl.
  by rewrite pooled_alone_snoc.
Qed.

Lemma close_note_inv st t n d :
  0 <= d -> pair_inv (st, t) -> pair_inv (close_note st n (t + d), t + d).
Proof.
  intros Hd (Ht & Hact & Hns); simpl in *.
  unfold close_note. destruct (active st !! n) as [s|] eqn:E.
  - pose proof (Hact _ _ E) as Hs; simpl in Hs.
    split_and!; simpl; [lia| |].
    + apply map_Forall_delete.
      eapply map_Forall_impl; [exact Hact|]. simpl; intros; lia.
    + apply Forall_app; split; [done|].
      apply Forall_singleton.
      unfold well_ordered, start_tick, end_tick; simpl. lia.
  - split_and!; simpl; [lia| |done].
    eapply map_Forall_impl; [exact Hact|]. simpl; intros; lia.
Qed.

Lemma pair_msg_inv acc m :
  0 <= msg_time m -> pair_inv acc -> pair_inv (pair_msg acc m).
Proof.
  destruct acc as [st t]. intros Hd Hinv.
  pose proof Hinv as (Ht & Hact & Hns); simpl in *.
  assert (Hkeep : pair_inv (st, t + msg_time m)).
  { split_and!; simpl; [lia| |done].
    eapply map_Forall_impl; [exact Hact|]. simpl; intros; lia. }
  destruct m as [n v d|n v d|d]; simpl in *.
  - repeat case_decide; [|by apply close_note_inv|done].
    split_and!; simpl; [lia| |done].
    apply map_Forall_insert_2; [lia|].
    eapply map_Forall_impl; [exact Hact|]. simpl; intros; lia.
  - by apply close_note_inv.
  - done.
Qed.

Lemma pair_msgs_inv tr : forall acc,
  Forall (fun m => 0 <= msg_time m) tr ->
  pair_inv acc -> pair_inv (foldl pair_msg acc tr).
Proof.
  induction tr as [|m tr IH]; intros acc Hd Hinv; cbn [foldl]; [done|].
  inversion_clear Hd. apply IH; [done|]. by apply pair_msg_inv.
Qed.

Lemma pair_alone_ordered tr :
  Forall (fun m => 0 <= msg_time m) tr ->
  Forall well_ordered (notes (pair_alone tr)).
Proof.
  intros Hd. unfold pair_alone, pair_track.
  apply (pair_msgs_inv tr (init_state, 0)); [done|].
  split_and!; simpl; [lia| |done]. apply map_Forall_empty.
Qed.

Lemma pooled_alone_ordered trs :
  nonneg_deltas trs -> Forall well_ordered (pooled_alone trs).
Proof.
  unfold nonneg_deltas, pooled_alone.
  induction 1 as [|tr trs Hd _ IH]; simpl; [done|].
  apply Forall_app; split; [by apply pair_alone_ordered|done].
Qed.

Lemma close_note_ticks st n t :
  0 <= t -> ticks_inv st -> ticks_inv (close_note st n t).
Proof.
  intros Ht [Hact Hns]. unfold close_note.
  destruct (active st !! n) as [s|] eqn:E; [|done].
  pose proof (Hact _ _ E) as Hs; simpl in Hs. split; simpl.
  - by apply map_Forall_delete.
  - apply Forall_app; split; [done|]. apply Forall_singleton.
    unfold nonneg_ticks, start_tick, end_tick; simpl. lia.
Qed.

Lemma pair_msg_ticks acc m :
  0 <= msg_time m -> 0 <= acc.2 -> ticks_inv acc.1 ->
  0 <= (pair_msg acc m).2 /\ ticks_inv (pair_msg acc m).1.
Proof.
  destruct acc as [st t]. simpl. intros Hd Ht Hinv.
  destruct m as [n v d|n v d|d]; simpl in *.
  - repeat case_decide; simpl; (split; [lia|]);
      [|apply close_note_ticks; [lia|done]|done].
    destruct Hinv as [Hact Hns]. split; simpl; [|done].
    apply map_Forall_insert_2; [lia|done].
  - split; [lia|]. apply close_note_ticks; [lia|done].
  - split; [lia|done].
Qed.

Lemma pair_msgs_ticks tr : forall acc,
  Forall (fun m => 0 <= msg_time m) tr -> 0 <= acc.2 -> ticks_inv acc.1 ->
  ticks_inv (foldl pair_msg acc tr).1.
Proof.
  induction tr as [|m tr IH]; intros acc Hd Ht Hinv; cbn [foldl]; [done|].
  inversion_clear Hd.
  destruct (pair_msg_ticks acc m) as [Ht' Hinv']; [done..|]. by apply IH.
Qed.

(** With non-negative deltas no paired interval has a negative tick, also
    when it is closed from another track. *)
Lemma paired_ticks_nonneg trs :
  nonneg_deltas trs -> Forall nonneg_ticks (paired trs).
Proof.
  intros Hd. unfold paired, pair_tracks.
  assert (Hgen : forall st, ticks_inv st -> ticks_inv (foldl pair_track st trs)).
  { induction Hd as [|tr trs Htr _ IH]; intros st Hst; [done|].
    cbn [foldl]. apply IH. unfold pair_track.
    by apply (pair_msgs_ticks tr (st, 0)). }
  apply Hgen. split; simpl; [apply map_Forall_empty|done].
Qed.

Lemma as_note_off_step acc m : pair_msg acc (as_note_off m) = pair_msg acc m.
Proof.
  destruct acc as [st t], m as [n v d|n v d|d]; try done.
  unfold as_note_off. destruct (decide (v = 0)) as [->|]; [|done].
  simpl. repeat case_decide; try lia; done.
Qed.

Lemma as_note_off_track tr : forall acc,
  foldl pair_msg acc (as_note_off <$> tr) = foldl pair_msg acc tr.
Proof.
  induction tr as [|m tr IH]; intros acc; [done|].
  rewrite fmap_cons. cbn [foldl]. by rewrite as_note_off_step, IH.
Qed.

Lemma as_note_off_tracks trs : forall st,
  foldl pair_track st (fmap (M:=list) as_note_off <$> trs) =
  foldl pair_track st trs.
Proof.
  induction trs as [|tr trs IH]; intros st; [done|].
  rewrite fmap_cons. cbn [foldl]. unfold pair_track at 2 4.
  by rewrite as_note_off_track, IH.
Qed.

End Pairing.

(** C4, as stated, fails: the pending map is not reset between tracks, so a
    note left open by the first track is closed by the second. *)
Lemma tracks_share_pending_map :
  ~ tracks_independent [[note_on 60 64 0]; [note_off 60 0 10]].
Proof.
  intros H. destruct (H (0, 10, 60)) as [H1 _].
  assert (Hin : (0, 10, 60) ∈
                paired [[note_on 60 64 0]; [note_off 60 0 10]])
    by (vm_compute; left).
  apply H1 in Hin. vm_compute in Hin. by apply elem_of_nil in Hin.
Qed.

(** C4 (amended): the pending map is carried from one track to the next;
    when every track but the last closes every note it opens, the pooled
    interval list is the lists of the tracks paired in isolation, in track
    order, and so the two have the same elements. *)
Theorem paired_tracks_closed_independent (trs : list (list Msg)) :
  Forall leaves_none_pending (but_last trs) ->
  paired trs = pooled_alone trs /\ tracks_independent trs.
Proof.
  intros Hall. pose proof (paired_closed_but_last trs Hall) as Heq.
  split; [done|]. intros iv. by rewrite Heq.
Qed.

Lemma paired_tracks_closed_independent_witness :
  let trs := [[note_on 60 64 0; note_off 60 0 120];
              [note_on 61 64 120; note_off 61 0 120; note_on 62 64 5]] in
  Forall leaves_none_pending (but_last trs) /\
  paired trs = pooled_alone trs /\ tracks_independent trs.
Proof.
  intros trs.
  assert (H : Forall leaves_none_pending (but_last trs)).
  { unfold trs, but_last; simpl. apply Forall_singleton.
    unfold leaves_none_pending. vm_compute. reflexivity. }
  split; [exact H|]. exact (paired_tracks_closed_independent trs H).
Defined.

(** C5, as stated, fails: with non-negative deltas in both tracks, a note
    opened at tick 100 of the first track is closed at tick 10 of the
    second, and the interval ends before it starts. *)
Lemma cross_track_interval_reversed :
  let trs := [[note_on 60 64 100]; [note_off 60 0 10]] in
  nonneg_deltas trs /\ ~ Forall well_ordered (paired trs).
Proof.
  intros trs. split.
  - unfold trs, nonneg_deltas. repeat constructor; simpl; lia.
  - intros H. apply Forall_inv in H.
    unfold well_ordered, start_tick, end_tick in H; simpl in H. lia.
Qed.

(** C5 (amended): for every input whose delta times are non-negative,
    each interval produced by event pairing has a non-negative start tick
    and a non-negative end tick; when moreover every track but the last
    closes every note it opens (every single-track input is one), the
    interval satisfies start_tick <= end_tick. *)
Theorem paired_intervals_well_ordered (trs : list (list Msg)) :
  nonneg_deltas trs ->
  forall iv, iv ∈ paired trs ->
    0 <= start_tick iv /\ 0 <= end_tick iv /\
    (Forall leaves_none_pending (but_last trs) ->
     start_tick iv <= end_tick iv).
Proof.
  intros Hd iv Hin.
  pose proof (paired_ticks_nonneg trs Hd) as Hnn.
  rewrite Forall_forall in Hnn. destruct (Hnn iv Hin) as [Hs He].
  split_and!; [done..|]. intros Hall.
  rewrite paired_closed_but_last in Hin by done.
  pose proof (pooled_alone_ordered trs Hd) as Hord.
  rewrite Forall_forall in Hord. destruct (Hord iv Hin). done.
Qed.

Lemma paired_intervals_well_ordered_witness :
  let trs := [[note_on 60 64 10; note_on 61 90 0; note_off 60 0 40;
               note_on 61 0 5; note_on 63 64 1]] in
  nonneg_deltas trs /\
  Forall leaves_none_pending (but_last trs) /\
  (10, 50, 60) ∈ paired trs /\
  start_tick (10, 50, 60) <= end_tick (10, 50, 60).
Proof.
  intros trs.
  assert (Hd : nonneg_deltas trs).
  { unfold trs, nonneg_deltas. repeat constructor; simpl; lia. }
  assert (Hall : Forall leaves_none_pending (but_last trs)).
  { unfold trs, but_last; simpl. constructor. }
  assert (Hin : (10, 50, 60) ∈ paired trs) by (vm_compute; left).
  split; [exact Hd|]. split; [exact Hall|]. split; [exact Hin|].
  exact (proj2 (proj2 (paired_intervals_well_ordered trs Hd (10, 50, 60) Hin))
               Hall).
Defined.

(** C6: a note-on with velocity 0 takes the same step as a note-off of the
    same note at the same tick; with a pending start it appends the
    interval [(start, T, note)] and clears the entry, without one it leaves
    the state as it is; and over whole files, rewriting every zero-velocity
    note-on as a note-off leaves the paired intervals unchanged. *)
Theorem zero_velocity_note_on_is_note_off
    (st : PairState) (t note vel delta : Z) :
  pair_msg (st, t) (note_on note 0 delta) =
    pair_msg (st, t) (note_off note vel delta) /\
  (forall start, active st !! note = Some start ->
     pair_msg (st, t) (note_on note 0 delta) =
       ({| active := delete note (active st);
           notes := notes st ++ [(start, t + delta, note)] |}, t + delta)) /\
  (active st !! note = None ->
     pair_msg (st, t) (note_on note 0 delta) = (st, t + delta)) /\
  (forall trs, paired (fmap (M:=list) as_note_off <$> trs) = paired trs).
Proof.
  split_and!.
  - simpl. repeat case_decide; try lia; done.
  - intros start Hs. simpl. repeat case_decide; try lia.
    unfold close_note. by rewrite Hs.
  - intros Hn. simpl. repeat case_decide; try lia.
    unfold close_note. by rewrite Hn.
  - intros trs. unfold paired, pair_tracks. by rewrite as_note_off_tracks.
Qed.

Lemma zero_velocity_note_on_is_note_off_witness :
  let st := {| active := {[ 60 := 10 ]}; notes := [] |} in
  active st !! 60 = Some 10 /\
  active st !! 61 = None /\
  pair_msg (st, 30) (note_on 60 0 20) =
    ({| active := delete 60 (active st); notes := [(10, 50, 60)] |}, 50) /\
  pair_msg (st, 30) (note_on 61 0 20) = (st, 50).
Proof.
  intros st.
  assert (H60 : active st !! 60 = Some 10) by reflexivity.
  assert (H61 : active st !! 61 = None) by reflexivity.
  split_and!; [exact H60|exact H61| |].
  - exact (proj1 (proj2 (zero_velocity_note_on_is_note_off st 30 60 0 20))
                 10 H60).
  - exact (proj1 (proj2 (proj2
             (zero_velocity_note_on_is_note_off st 30 61 0 20))) H61).
Defined.

(** ** Time quantization *)

Lemma floordiv_ok (a b : Z) : b <> 0 -> floordiv a b = Ok (a `div` b).
Proof. intros Hb. unfold floordiv. by case_decide. Qed.

Lemma floordiv_zero (a : Z) : floordiv a 0 = Raise ZeroDivisionError.
Proof. done. Qed.

(** C3: for a positive step size, quantization returns the floor of
    tick / ticks_per_step (the step whose span of ticks holds the tick), is
    monotone in the tick, and sends k * ticks_per_step to k. *)
Theorem quantize_floor_monotone (ticks_per_step : Z) :
  0 < ticks_per_step ->
  (forall tick,
     quantize tick ticks_per_step = Ok (tick `div` ticks_per_step) /\
     (tick `div` ticks_per_step) * ticks_per_step <= tick
       < (tick `div` ticks_per_step + 1) * ticks_per_step) /\
  (forall t1 t2, t1 <= t2 ->
     exists s1 s2,
       quantize t1 ticks_per_step = Ok s1 /\
       quantize t2 ticks_per_step = Ok s2 /\ s1 <= s2) /\
  (forall k, 0 <= k -> quantize (k * ticks_per_step) ticks_per_step = Ok k).
Proof.
  intros Hpos. assert (Hne : ticks_per_step <> 0) by lia.
  split_and!.
  - intros tick. split; [by apply floordiv_ok|].
    pose proof (Z.mul_div_le tick ticks_per_step Hpos).
    pose proof (Z.mul_succ_div_gt tick ticks_per_step Hpos). lia.
  - intros t1 t2 Hle.
    exists (t1 `div` ticks_per_step), (t2 `div` ticks_per_step).
    split_and!; [by apply floordiv_ok..|]. by apply Z.div_le_mono.
  - intros k _. unfold quantize. rewrite floordiv_ok by done.
    by rewrite Z.div_mul.
Qed.

Lemma quantize_floor_monotone_witness :
  quantize 250 120 = Ok 2 /\
  (exists s1 s2, quantize 119 120 = Ok s1 /\ quantize 120 120 = Ok s2 /\
     s1 <= s2) /\
  quantize (7 * 120) 120 = Ok 7.
Proof.
  assert (Hpos : 0 < 120) by lia.
  pose proof (quantize_floor_monotone 120 Hpos) as (Hfloor & Hmono & Hmul).
  split; [exact (proj1 (Hfloor 250))|].
  split; [apply Hmono; lia|]. apply Hmul; lia.
Defined.

(** ** Row expansion *)

Section RowExpansion.

Implicit Types (chart : list (list Z)) (iv : NoteInterval).

Lemma py_index_in_range (len : nat) (i : Z) :
  0 <= i < Z.of_nat len -> py_index len i = Ok (Z.to_nat i).
Proof. intros Hi. unfold py_index. by case_decide. Qed.

(** An assignment to a cell inside the chart succeeds and changes that
    cell only. *)
Lemma set_cell_spec chart (r : Z) (lane : nat) (v : Z) :
  well_formed chart -> 0 <= r < Z.of_nat (length chart) -> (lane < 4)%nat ->
  exists chart',
    set_cell chart r lane v = Ok chart' /\
    well_formed chart' /\ length chart' = length chart /\
    forall r' l',
      cell chart' r' l' =
      if decide (r' = r /\ l' = lane) then Some v else cell chart r' l'.
Proof.
  intros Hwf Hr Hl.
  destruct (lookup_lt_is_Some_2 chart (Z.to_nat r)) as [row Hrow]; [lia|].
  assert (Hlen : length row = 4%nat).
  { unfold well_formed in Hwf. rewrite Forall_lookup in Hwf. eauto. }
  exists (<[Z.to_nat r := <[lane := v]> row]> chart). split_and!.
  - unfold set_cell. rewrite py_index_in_range by done. simpl.
    rewrite Hrow. rewrite py_index_in_range by lia. simpl.
    by rewrite Nat2Z.id.
  - apply Forall_insert; [done|]. by rewrite length_insert.
  - by rewrite length_insert.
  - intros r' l'. unfold cell. case_decide as Hr'; [|by case_decide; [lia|]].
    destruct (decide (r' = r)) as [->|Hne].
    + rewrite list_lookup_insert_eq by lia. rewrite Hrow. simpl.
      destruct (decide (l' = lane)) as [->|Hne].
      * rewrite list_lookup_insert_eq by lia. by rewrite decide_True.
      * rewrite list_lookup_insert_ne by done.
        rewrite decide_False; [done|]. intros [_ ?]; done.
    + rewrite list_lookup_insert_ne by lia.
      rewrite decide_False; [done|]. intros [? _]; done.
Qed.

Lemma for_each_app {A S : Type} (body : S -> A -> result S) (l1 l2 : list A) :
  forall s, for_each body s (l1 ++ l2) =
            s' ← for_each body s l1; for_each body s' l2.
Proof.
  induction l1 as [|x l1 IH]; intros s; simpl; [done|].
  destruct (body s x) as [s1|e]; simpl; [apply IH|done].
Qed.

(** One row: below [num_rows] the cell gets its code, otherwise nothing
    happens. *)
Lemma paint_row_spec (num_rows srow rps : Z) (lane : nat) chart (r0 : Z) :
  well_formed chart -> length chart = Z.to_nat num_rows ->
  0 <= r0 -> (lane < 4)%nat ->
  exists chart',
    paint_row num_rows srow rps lane chart r0 = Ok chart' /\
    well_formed chart' /\ length chart' = length chart /\
    forall r l,
      cell chart' r l =
      if decide (r = r0 /\ l = lane /\ r0 < num_rows)
      then Some (if decide (r0 < srow + rps) then HEAD else TAIL)
      else cell chart r l.
Proof.
  intros Hwf Hlen Hr0 Hl. unfold paint_row.
  destruct (decide (r0 < num_rows)) as [Hlt|Hge].
  - assert (Hin : 0 <= r0 < Z.of_nat (length chart)) by lia.
    destruct (decide (r0 < srow + rps)) as [Hhead|Htail];
      (edestruct set_cell_spec as (chart' & -> & Hwf' & Hlen' & Hcell');
        [exact Hwf|exact Hin|exact Hl|]);
      exists chart'; (split_and!; [done..|]);
      intros r l; rewrite Hcell'; repeat case_decide; try done;
      exfalso; naive_solver.
  - exists chart. split_and!; [done..|]. intros r l.
    rewrite decide_False; [done|]. naive_solver.
Qed.

(** The loop over rows: every row of the list below [num_rows] gets its
    code on [lane], nothing else changes. *)
Lemma paint_rows_spec (num_rows srow rps : Z) (lane : nat) (rs : list Z) :
  forall chart,
    well_formed chart -> length chart = Z.to_nat num_rows ->
    Forall (fun r => 0 <= r) rs -> (lane < 4)%nat ->
    exists chart',
      for_each (paint_row num_rows srow rps lane) chart rs = Ok chart' /\
      well_formed chart' /\ length chart' = length chart /\
      forall r l,
        cell chart' r l =
        if decide (l = lane /\ r ∈ rs /\ r < num_rows)
        then Some (if decide (r < srow + rps) then HEAD else TAIL)
        else cell chart r l.
Proof.
  induction rs as [|r0 rs IH]; intros chart Hwf Hlen Hrs Hl.
  - exists chart. split_and!; try done. intros r l.
    rewrite decide_False; [done|].
    intros (_ & Hin & _). by apply elem_of_nil in Hin.
  - inversion_clear Hrs as [|? ? Hr0 Hrs']. cbn [for_each].
    destruct (paint_row_spec num_rows srow rps lane chart r0)
      as (chart1 & -> & Hwf1 & Hlen1 & Hcell1); [done..|].
    destruct (IH chart1) as (chart' & Hrun & Hwf' & Hlen' & Hcell');
      [done|congruence|done|done|].
    exists chart'. split_and!; [done|done|congruence|].
    intros r l. rewrite Hcell', Hcell1.
    destruct (decide (r = r0)) as [->|Hne];
      repeat case_decide; try done; exfalso; set_unfold; naive_solver.
Qed.

Lemma index_spec (l : list Z) (x : Z) :
  (x ∈ l -> exists i, index l x = Ok i) /\
  (forall i, index l x = Ok i -> x ∈ l /\ (i < length l)%nat).
Proof.
  induction l as [|y l [IH1 IH2]]; simpl.
  - split; [by intros ?%elem_of_nil|done].
  - destruct (decide (y = x)) as [->|Hne].
    + split; [by eauto|]. intros i [= <-]. split; [left|lia].
    + split.
      * intros [?|Hin]%elem_of_cons; [done|].
        destruct (IH1 Hin) as [i ->]. by eexists.
      * intros i Hi. destruct (index l x) as [j|e]; [|done].
        injection Hi as <-. destruct (IH2 j eq_refl). split; [by right|lia].
Qed.

Section Config.

Variables (lane_notes : list Z) (ticks_per_step rows_per_step : Z).
Hypothesis lanes4 : length lane_notes = 4%nat.
Hypothesis tps_pos : 0 < ticks_per_step.
Hypothesis rps_pos : 0 < rows_per_step.

Abbreviation srow := (start_row ticks_per_step rows_per_step).
Abbreviation erow := (end_row ticks_per_step rows_per_step).
Abbreviation covering := (covers lane_notes ticks_per_step rows_per_step).
Abbreviation code := (row_code ticks_per_step rows_per_step).

Lemma start_row_nonneg iv : 0 <= start_tick iv -> 0 <= srow iv.
Proof using tps_pos rps_pos.
  clear lanes4.
  intros Hs. unfold start_row.
  pose proof (Z.div_pos (start_tick iv) ticks_per_step Hs tps_pos). nia.
Qed.

(** One interval: the cells it covers below [num_rows] get its code,
    every other cell keeps its value. *)
Lemma paint_note_spec (num_rows : Z) chart iv :
  well_formed chart -> length chart = Z.to_nat num_rows ->
  0 <= start_tick iv ->
  exists chart',
    paint_note lane_notes ticks_per_step rows_per_step num_rows chart iv
      = Ok chart' /\
    well_formed chart' /\ length chart' = length chart /\
    forall r l,
      cell chart' r l =
      if decide (covering iv r l /\ r < num_rows)
      then Some (code iv r) else cell chart r l.
Proof.
  intros Hwf Hlen Hs. unfold paint_note.
  destruct (index_spec lane_notes (iv_note iv)) as [Hex Hidx].
  case_bool_decide as Hin.
  - destruct (Hex Hin) as [lane Hlane]. rewrite Hlane. simpl.
    unfold quantize. rewrite !floordiv_ok by lia. simpl.
    destruct (Hidx lane Hlane) as [_ Hlt].
    destruct (paint_rows_spec num_rows (srow iv) rows_per_step lane
                (range (srow iv) (erow iv)) chart)
      as (chart' & Hrun & Hwf' & Hlen' & Hcell'); [done|done| |lia|].
    { apply Forall_forall. intros r Hr%elem_of_seqZ.
      pose proof (start_row_nonneg iv Hs). lia. }
    exists chart'. split_and!; [done..|].
    intros r l. rewrite Hcell'. unfold covers, row_code, range.
    repeat case_decide; try done; exfalso; set_unfold;
      naive_solver (congruence || lia).
  - exists chart. split_and!; [done..|]. intros r l.
    rewrite decide_False; [done|].
    intros [[Hl _] _]. destruct (Hidx l Hl). done.
Qed.

(** The loop over intervals runs to its end; a cell that no interval
    of the list covers keeps its value. *)
Lemma paint_notes_frame (num_rows : Z) (ivs : list NoteInterval) :
  forall chart,
    well_formed chart -> length chart = Z.to_nat num_rows ->
    Forall (fun iv => 0 <= start_tick iv) ivs ->
    exists chart',
      for_each (paint_note lane_notes ticks_per_step rows_per_step num_rows)
               chart ivs = Ok chart' /\
      well_formed chart' /\ length chart' = length chart /\
      forall r l,
        Forall (fun iv => ~ covering iv r l) ivs ->
        cell chart' r l = cell chart r l.
Proof.
  induction ivs as [|iv ivs IH]; intros chart Hwf Hlen Hs.
  - exists chart. by split_and!.
  - inversion_clear Hs as [|? ? Hiv Hivs]. cbn [for_each].
    destruct (paint_note_spec num_rows chart iv)
      as (chart1 & -> & Hwf1 & Hlen1 & Hcell1); [done..|].
    destruct (IH chart1) as (chart' & Hrun & Hwf' & Hlen' & Hcell');
      [done|congruence|done|].
    exists chart'. split_and!; [done|done|congruence|].
    intros r l Hnone. inversion_clear Hnone as [|? ? Hn Hns].
    rewrite Hcell' by done. rewrite Hcell1.
    rewrite decide_False; [done|]. by intros [? _].
Qed.

(** Last write wins: the cell holds the code of the last interval of
    the list that covers it. *)
Lemma paint_notes_last (num_rows : Z) (pre post : list NoteInterval)
    (B : NoteInterval) chart (r : Z) (l : nat) :
  well_formed chart -> length chart = Z.to_nat num_rows ->
  Forall (fun iv => 0 <= start_tick iv) (pre ++ B :: post) ->
  covering B r l -> r < num_rows ->
  Forall (fun iv => ~ covering iv r l) post ->
  exists chart',
    for_each (paint_note lane_notes ticks_per_step rows_per_step num_rows)
             chart (pre ++ B :: post) = Ok chart' /\
    well_formed chart' /\ length chart' = length chart /\
    cell chart' r l = Some (code B r).
Proof.
  intros Hwf Hlen Hs HB Hr Hpost.
  apply Forall_app in Hs as [Hpre Hs].
  inversion_clear Hs as [|? ? HsB Hspost].
  rewrite for_each_app.
  destruct (paint_notes_frame num_rows pre chart)
    as (chart1 & -> & Hwf1 & Hlen1 & _); [done..|].
  simpl.
  destruct (paint_note_spec num_rows chart1 B)
    as (chart2 & -> & Hwf2 & Hlen2 & Hcell2); [done|congruence|done|].
  simpl.
  destruct (paint_notes_frame num_rows post chart2)
    as (chart3 & -> & Hwf3 & Hlen3 & Hcell3); [done|congruence|done|].
  exists chart3. split_and!; [done|done|congruence|].
  rewrite Hcell3 by done. rewrite Hcell2. by rewrite decide_True.
Qed.

Lemma foldl_max_spec (l : list Z) : forall x,
  foldl Z.max x l ∈ x :: l /\ forall e, e ∈ x :: l -> e <= foldl Z.max x l.
Proof using Type.
  clear lanes4 tps_pos rps_pos.
  induction l as [|y l IH]; intros x; simpl.
  - split; [left|]. intros e ?%list_elem_of_singleton. lia.
  - destruct (IH (x `max` y)) as [Hin Hle]. split.
    + apply elem_of_cons in Hin as [->|Hin].
      * destruct (Z.max_spec x y) as [[_ ->]|[_ ->]]; set_solver.
      * set_solver.
    + intros e He. assert (He' : e <= x `max` y \/ e ∈ l).
      { set_unfold. destruct He as [->|[->|?]]; [left; lia..|by right]. }
      destruct He' as [?|?].
      * pose proof (Hle (x `max` y)). set_unfold. naive_solver lia.
      * apply Hle. set_solver.
Qed.

(** The chart is sized from the largest end tick of the list. *)
Lemma chart_rows_spec (ivs : list NoteInterval) :
  ivs <> [] ->
  exists max_tick,
    py_max (end_tick <$> ivs) = Ok max_tick /\
    max_tick ∈ end_tick <$> ivs /\
    (forall iv, iv ∈ ivs -> end_tick iv <= max_tick) /\
    chart_rows ticks_per_step rows_per_step ivs =
      Ok ((max_tick `div` ticks_per_step + 1) * rows_per_step).
Proof using tps_pos.
  clear lanes4 rps_pos.
  intros Hne. destruct ivs as [|iv ivs]; [done|].
  destruct (foldl_max_spec (end_tick <$> ivs) (end_tick iv)) as [Hin Hle].
  exists (foldl Z.max (end_tick iv) (end_tick <$> ivs)). split_and!.
  - done.
  - by rewrite fmap_cons.
  - intros iv' Hiv'. apply Hle. rewrite <- fmap_cons.
    by apply list_elem_of_fmap_2.
  - unfold chart_rows. rewrite fmap_cons. simpl.
    rewrite floordiv_ok by lia. done.
Qed.

(** Every row of an interval's range lies below the row count derived
    from any tick at or after its end. *)
Lemma range_below_rows iv (max_tick r : Z) :
  end_tick iv <= max_tick ->
  r ∈ range (srow iv) (erow iv) ->
  r < (max_tick `div` ticks_per_step + 1) * rows_per_step.
Proof using tps_pos rps_pos.
  clear lanes4.
  intros Hle Hr%elem_of_seqZ. unfold end_row in Hr.
  pose proof (Z.div_le_mono _ _ ticks_per_step tps_pos Hle). nia.
Qed.

Lemma empty_chart_well_formed (num_rows : Z) :
  well_formed (empty_chart num_rows) /\
  length (empty_chart num_rows) = Z.to_nat num_rows /\
  forall r l, cell (empty_chart num_rows) r l = Some NONE \/
              cell (empty_chart num_rows) r l = None.
Proof using Type.
  clear lanes4 tps_pos rps_pos.
  unfold empty_chart. split_and!.
  - by apply Forall_replicate.
  - by rewrite length_replicate.
  - intros r l. unfold cell. case_decide; [|by right].
    destruct (replicate _ _ !! Z.to_nat r) as [row|] eqn:E; [|by right].
    apply lookup_replicate in E as [-> _]; simpl.
    do 4 (destruct l as [|l]; [by left|]). by right.
Qed.

End Config.

End RowExpansion.

(** C1: painting an interval mapped to [lane] marks every row of
    [start_row, end_row) that is inside the chart as HEAD when it lies in
    the first [rows_per_step] rows of the range and as TAIL otherwise, and
    touches no other cell; with 480 ticks per beat, subdivision 4 and 4 rows
    per step, the lane-0 interval over ticks [0, 240] gives rows 0-3 HEAD,
    rows 4-7 TAIL and rows 8-11 NONE on lane 0. *)
Theorem row_expansion_head_tail :
  (forall (lane_notes : list Z) (ticks_per_step rows_per_step num_rows : Z)
          (chart : list (list Z)) (iv : NoteInterval) (lane : nat),
     0 < ticks_per_step -> 0 < rows_per_step ->
     length lane_notes = 4%nat ->
     well_formed chart -> length chart = Z.to_nat num_rows ->
     0 <= start_tick iv ->
     index lane_notes (iv_note iv) = Ok lane ->
     exists chart',
       paint_note lane_notes ticks_per_step rows_per_step num_rows chart iv
         = Ok chart' /\
       (forall r,
          start_row ticks_per_step rows_per_step iv <= r
            < end_row ticks_per_step rows_per_step iv ->
          r < num_rows ->
          cell chart' r lane =
          Some (if decide (r < start_row ticks_per_step rows_per_step iv
                               + rows_per_step)
                then HEAD else TAIL)) /\
       (forall r l,
          ~ (l = lane /\
             start_row ticks_per_step rows_per_step iv <= r
               < end_row ticks_per_step rows_per_step iv) ->
          cell chart' r l = cell chart r l)) /\
  (floordiv 480 4 = Ok 120 /\
   paired [[note_on 60 64 0; note_off 60 0 240]] = [(0, 240, 60)] /\
   build_chart [60; 61; 62; 63] 120 4 [(0, 240, 60)] =
     Ok (replicate 4 [HEAD; NONE; NONE; NONE] ++
         replicate 4 [TAIL; NONE; NONE; NONE] ++
         replicate 4 [NONE; NONE; NONE; NONE])).
Proof.
  split; [|by vm_compute].
  intros lane_notes tps rps num_rows chart iv lane
         Htps Hrps Hlanes Hwf Hlen Hs Hlane.
  destruct (paint_note_spec lane_notes tps rps Hlanes Htps Hrps
              num_rows chart iv)
    as (chart' & Hrun & _ & _ & Hcell); [done..|].
  pose proof (index_spec lane_notes (iv_note iv)) as [_ Hidx].
  exists chart'. split_and!; [done| |].
  - intros r Hr Hlt. rewrite Hcell. by rewrite decide_True.
  - intros r l Hout. rewrite Hcell. rewrite decide_False; [done|].
    intros [[Hl Hr] _]. apply Hout. split; [congruence|done].
Qed.

Lemma row_expansion_head_tail_witness :
  exists chart',
    paint_note [60; 61; 62; 63] 120 4 12 (empty_chart 12) (0, 240, 60)
      = Ok chart' /\
    cell chart' 2 0 = Some HEAD /\
    cell chart' 5 0 = Some TAIL /\
    cell chart' 9 0 = cell (empty_chart 12) 9 0.
Proof.
  destruct (proj1 row_expansion_head_tail
              [60; 61; 62; 63] 120 4 12 (empty_chart 12) (0, 240, 60) 0%nat)
    as (chart' & Hrun & Hin & Hout).
  - lia.
  - lia.
  - reflexivity.
  - vm_compute. repeat constructor.
  - reflexivity.
  - vm_compute. discriminate.
  - reflexivity.
  - exists chart'. split; [exact Hrun|].
    split; [apply (Hin 2); vm_compute; split; congruence|].
    split; [apply (Hin 5); vm_compute; split; congruence|].
    apply Hout. vm_compute. intros [_ [_ H]]. discriminate H.
Defined.

(** C7: when two intervals A and B of the list, B after A, are mapped to
    the same lane and both cover a row, building the chart succeeds and the
    row holds B's code on that lane (B being the last interval of the list
    to cover the row): the later write replaces the earlier one. *)
Theorem overlap_last_write_wins
    (lane_notes : list Z) (ticks_per_step rows_per_step : Z)
    (pre mid post : list NoteInterval) (A B : NoteInterval)
    (r : Z) (lane : nat) :
  0 < ticks_per_step -> 0 < rows_per_step ->
  length lane_notes = 4%nat ->
  Forall (fun iv => 0 <= start_tick iv) (pre ++ A :: mid ++ B :: post) ->
  covers lane_notes ticks_per_step rows_per_step A r lane ->
  covers lane_notes ticks_per_step rows_per_step B r lane ->
  Forall (fun iv => ~ covers lane_notes ticks_per_step rows_per_step iv r lane)
         post ->
  exists chart,
    build_chart lane_notes ticks_per_step rows_per_step
                (pre ++ A :: mid ++ B :: post) = Ok chart /\
    cell chart r lane = Some (row_code ticks_per_step rows_per_step B r).
Proof.
  intros Htps Hrps Hlanes Hs HA HB Hpost.
  set (ivs := pre ++ A :: mid ++ B :: post) in *.
  assert (Hsplit : ivs = (pre ++ A :: mid) ++ B :: post).
  { unfold ivs. by rewrite <- app_assoc. }
  destruct (chart_rows_spec ticks_per_step rows_per_step Htps ivs)
    as (max_tick & _ & _ & Hmax & Hrows).
  { unfold ivs. by destruct pre. }
  assert (Hlt : r < (max_tick `div` ticks_per_step + 1) * rows_per_step).
  { apply (range_below_rows ticks_per_step rows_per_step Htps Hrps B).
    - apply Hmax. rewrite Hsplit. set_solver.
    - apply elem_of_seqZ. destruct HB as [_ HB]. lia. }
  unfold build_chart. rewrite Hrows. simpl.
  destruct (empty_chart_well_formed
              ((max_tick `div` ticks_per_step + 1) * rows_per_step))
    as (Hwf & Hlen & _).
  rewrite Hsplit in Hs |- *.
  destruct (paint_notes_last lane_notes ticks_per_step rows_per_step
              Hlanes Htps Hrps _ (pre ++ A :: mid) post B _ r lane
              Hwf Hlen Hs HB Hlt Hpost)
    as (chart & Hrun & _ & _ & Hcell).
  by exists chart.
Qed.

Lemma overlap_last_write_wins_witness :
  exists chart,
    build_chart [60; 61; 62; 63] 120 4 [(0, 480, 60); (240, 600, 60)]
      = Ok chart /\
    cell chart 8 0 = Some HEAD.
Proof.
  apply (overlap_last_write_wins [60; 61; 62; 63] 120 4
           [] [] [] (0, 480, 60) (240, 600, 60) 8 0%nat).
  - lia.
  - lia.
  - reflexivity.
  - repeat constructor; vm_compute; discriminate.
  - vm_compute. repeat split; congruence.
  - vm_compute. repeat split; congruence.
  - constructor.
Defined.

(** C10: for a non-empty interval list and positive step and row sizes,
    the chart has (floor(max_end_tick / ticks_per_step) + 1) * rows_per_step
    rows and every row index the expansion loop generates is below that
    count, so the bounds test of the loop body always passes: the body acts
    as it would without the test. *)
Theorem expansion_rows_within_chart
    (ticks_per_step rows_per_step : Z) (ivs : list NoteInterval) :
  0 < ticks_per_step -> 0 < rows_per_step -> ivs <> [] ->
  exists max_tick num_rows,
    py_max (end_tick <$> ivs) = Ok max_tick /\
    max_tick ∈ end_tick <$> ivs /\
    (forall iv, iv ∈ ivs -> end_tick iv <= max_tick) /\
    chart_rows ticks_per_step rows_per_step ivs = Ok num_rows /\
    num_rows = (max_tick `div` ticks_per_step + 1) * rows_per_step /\
    forall iv r,
      iv ∈ ivs ->
      r ∈ range (start_row ticks_per_step rows_per_step iv)
                (end_row ticks_per_step rows_per_step iv) ->
      r < num_rows /\
      forall lane chart,
        paint_row num_rows (start_row ticks_per_step rows_per_step iv)
                  rows_per_step lane chart r =
        paint_row_unguarded (start_row ticks_per_step rows_per_step iv)
                  rows_per_step lane chart r.
Proof.
  intros Htps Hrps Hne.
  destruct (chart_rows_spec ticks_per_step rows_per_step Htps ivs Hne)
    as (max_tick & Hmax & Hin & Hle & Hrows).
  exists max_tick, ((max_tick `div` ticks_per_step + 1) * rows_per_step).
  split_and!; [done..|].
  intros iv r Hiv Hr.
  assert (Hlt : r < (max_tick `div` ticks_per_step + 1) * rows_per_step).
  { apply (range_below_rows ticks_per_step rows_per_step Htps Hrps iv);
      [by apply Hle|done]. }
  split; [done|]. intros lane chart.
  unfold paint_row, paint_row_unguarded. by rewrite decide_True.
Qed.

Lemma expansion_rows_within_chart_witness :
  exists max_tick num_rows,
    py_max (end_tick <$> [(0, 240, 60); (100, 130, 61)]) = Ok max_tick /\
    chart_rows 120 4 [(0, 240, 60); (100, 130, 61)] = Ok num_rows /\
    num_rows = 12 /\
    7 < num_rows.
Proof.
  assert (H1 : 0 < 120) by lia.
  assert (H2 : 0 < 4) by lia.
  assert (H3 : [(0, 240, 60); (100, 130, 61)] <> ([] : list NoteInterval))
    by discriminate.
  destruct (expansion_rows_within_chart 120 4
              [(0, 240, 60); (100, 130, 61)] H1 H2 H3)
    as (max_tick & num_rows & Hmax & _ & _ & Hrows & Hnum & Hall).
  exists max_tick, num_rows.
  split; [exact Hmax|]. split; [exact Hrows|].
  split.
  - vm_compute in Hmax. injection Hmax as <-. exact Hnum.
  - apply (Hall (0, 240, 60) 7); [left|].
    vm_compute. do 7 right. left.
Defined.

(** ** Serialization *)

Section Serialization.

Lemma string_app_assoc (a b c : string) : (a +:+ b) +:+ c = a +:+ (b +:+ c).
Proof.
  induction a as [|x a IH]; [done|].
  change (String x ((a +:+ b) +:+ c) = String x (a +:+ (b +:+ c))).
  by rewrite IH.
Qed.

Lemma string_app_empty (a : string) : a +:+ EmptyString = a.
Proof.
  induction a as [|x a IH]; [done|].
  change (String x (a +:+ EmptyString) = String x a). by rewrite IH.
Qed.

Lemma serialize_from (chart : list (list Z)) : forall buf,
  foldl (fun buf row => buf +:+ (render_row row +:+ newline)) buf chart =
  buf +:+ String.concat EmptyString
            ((fun row => render_row row +:+ newline) <$> chart).
Proof.
  induction chart as [|row chart IH]; intros buf.
  - simpl. by rewrite string_app_empty.
  - cbn [foldl]. rewrite IH, fmap_cons, string_app_assoc. f_equal.
    destruct chart as [|row' chart]; simpl; [|done].
    by rewrite string_app_empty.
Qed.

(** The 81 rows of four codes, one by one. *)
Lemma valid_row_cases (row : list Z) :
  valid_row row ->
  exists a b c d, row = [a; b; c; d] /\
                  is_code a /\ is_code b /\ is_code c /\ is_code d.
Proof.
  intros [Hlen Hcodes].
  do 4 (destruct row as [|? row]; [done|]). destruct row; [|done].
  repeat (apply Forall_cons in Hcodes as [? Hcodes]). eauto 10.
Qed.

Lemma set_cell_valid chart (r : Z) (lane : nat) (v : Z) chart' :
  Forall valid_row chart -> is_code v ->
  set_cell chart r lane v = Ok chart' -> Forall valid_row chart'.
Proof.
  intros Hval Hv. unfold set_cell.
  destruct (py_index (length chart) r) as [i|e]; simpl; [|done].
  destruct (chart !! i) as [cells|] eqn:Hi; [|done].
  destruct (py_index (length cells) (Z.of_nat lane)) as [j|e]; simpl; [|done].
  intros [= <-]. apply Forall_insert; [done|].
  rewrite Forall_lookup in Hval. destruct (Hval i cells Hi) as [Hlen Hcodes].
  split; [by rewrite length_insert|]. by apply Forall_insert.
Qed.

Lemma for_each_inv {A S : Type} (P : S -> Prop) (body : S -> A -> result S) :
  (forall s x s', P s -> body s x = Ok s' -> P s') ->
  forall l s s', P s -> for_each body s l = Ok s' -> P s'.
Proof.
  intros Hstep. induction l as [|x l IH]; intros s s' Hs; simpl.
  - by intros [= <-].
  - destruct (body s x) as [s1|e] eqn:E; simpl; [|done]. eauto.
Qed.

(** Whatever the configuration, a chart that gets built has rows of four
    codes: the encoder never produces the reserved value 3. *)
Lemma build_chart_valid lane_notes tps rps ivs chart :
  build_chart lane_notes tps rps ivs = Ok chart -> Forall valid_row chart.
Proof.
  unfold build_chart.
  destruct (chart_rows tps rps ivs) as [num_rows|e]; simpl; [|done].
  apply for_each_inv.
  - intros s iv s' Hs. unfold paint_note.
    case_bool_decide; [|by intros [= <-]].
    destruct (index _ _) as [lane|e]; simpl; [|done].
    destruct (quantize (start_tick iv) tps) as [s1|e]; simpl; [|done].
    destruct (quantize (end_tick iv) tps) as [s2|e]; simpl; [|done].
    apply for_each_inv; [|done].
    intros c row c' Hc. unfold paint_row.
    repeat case_decide; try (by intros [= <-]);
      apply set_cell_valid; try done; unfold is_code; auto.
  - apply Forall_replicate. split; [done|].
    repeat constructor; by left.
Qed.

End Serialization.

(** C2: a row of four codes in {0, 1, 2} is rendered as the four 2-digit
    fields of its codes, lane 0 first (0 as 00, 1 as 01, 2 as 10): 8
    characters, all binary digits, none of the fields being 11, and the
    line decodes back to the row; the text written is these lines in chart
    row order, each followed by a newline, and nothing else.  Every chart
    the encoder builds has such rows. *)
Theorem serialize_round_trip (chart : list (list Z)) :
  Forall valid_row chart ->
  serialize chart =
    String.concat EmptyString ((fun row => render_row row +:+ newline) <$> chart) /\
  (forall row, row ∈ chart ->
     String.length (render_row row) = 8%nat /\
     Forall binary_digit (String.list_ascii_of_string (render_row row)) /\
     fields (String.list_ascii_of_string (render_row row)) = format_02b <$> row /\
     ("11" ∉ fields (String.list_ascii_of_string (render_row row))) /\
     decode_line (render_row row) = Some row) /\
  format_02b NONE = "00" /\ format_02b TAIL = "01" /\ format_02b HEAD = "10" /\
  (forall lane_notes ticks_per_step rows_per_step ivs built,
     build_chart lane_notes ticks_per_step rows_per_step ivs = Ok built ->
     Forall valid_row built).
Proof.
  intros Hval. split_and!; try done.
  - unfold serialize. by rewrite serialize_from.
  - intros row Hrow. rewrite Forall_forall in Hval.
    destruct (valid_row_cases row (Hval row Hrow))
      as (a & b & c & d & -> & Ha & Hb & Hc & Hd).
    unfold is_code, NONE, TAIL, HEAD in *.
    destruct Ha as [-> | [-> | ->] ], Hb as [-> | [-> | ->] ],
             Hc as [-> | [-> | ->] ], Hd as [-> | [-> | ->] ];
      (split_and!; [done|repeat constructor; (by left) || (by right)|done| |done]);
      vm_compute; intros H;
      repeat (inversion H as [|? ? ? H']; clear H; subst; rename H' into H);
      inversion H.
  - intros. by eapply build_chart_valid.
Qed.

Lemma serialize_round_trip_witness :
  let chart := [[HEAD; NONE; TAIL; NONE]; [NONE; HEAD; TAIL; TAIL]] in
  Forall valid_row chart /\
  serialize chart =
    "10000100" +:+ newline +:+ "00100101" +:+ newline /\
  decode_line "00100101" = Some [NONE; HEAD; TAIL; TAIL].
Proof.
  intros chart.
  assert (Hval : Forall valid_row chart).
  { unfold chart, valid_row, is_code, NONE, TAIL, HEAD.
    repeat first [apply Forall_nil_2 | apply Forall_cons_2 | split]; auto. }
  destruct (serialize_round_trip chart Hval) as (Htext & Hrows & _).
  split; [exact Hval|]. split; [exact Htext|].
  apply (Hrows [NONE; HEAD; TAIL; TAIL]). right. left.
Defined.

(** ** The encoder as a whole *)

(** X4: tracks that never close a note leave nothing paired: on-events
    without a matching off-event give no interval. *)
Lemma only_openings_pair_nothing (trs : list (list Msg)) :
  Forall (Forall opens_only) trs -> paired trs = [].
Proof.
  intros Hall. unfold paired, pair_tracks.
  assert (Hgen : forall st, notes st = [] -> notes (foldl pair_track st trs) = []).
  { induction Hall as [|tr trs Htr _ IH]; intros st Hst; [done|].
    cbn [foldl]. apply IH. unfold pair_track.
    assert (Htrack : forall acc : PairState * Z,
              notes acc.1 = [] -> notes (foldl pair_msg acc tr).1 = []).
    { induction Htr as [|m tr Hm _ IHtr]; intros acc Hacc; [done|].
      cbn [foldl]. apply IHtr. destruct acc as [st' t], m as [n v d|n v d|d];
        simpl in *; [|done..].
      repeat case_decide; try done; lia. }
    by apply Htrack. }
  by apply Hgen.
Qed.


(** C8: when pairing yields no interval (a well-formed subdivision, so that
    the step size can be computed), the encoder prints the no-notes message,
    returns without raising and leaves the files as they were. *)
Theorem no_notes_found (mid : MidiFile) (output_path : string)
    (lane_notes : list Z) (subdivision rows_per_step : Z) (w : World) :
  subdivision <> 0 ->
  paired (tracks mid) = [] ->
  midi_to_chart mid output_path lane_notes subdivision rows_per_step w =
    (print "No notes found" w, Ok ()) /\
  files (midi_to_chart mid output_path lane_notes subdivision rows_per_step w).1
    = files w.
Proof.
  intros Hsub Hnone. unfold midi_to_chart.
  rewrite floordiv_ok by done. by rewrite Hnone.
Qed.

Lemma no_notes_found_witness :
  let mid := {| ticks_per_beat := 480;
                tracks := [[note_on 60 64 0; other_msg 10; note_on 61 64 5];
                           [note_off 62 0 7]] |} in
  let w := {| stdout := []; files := ∅ |} in
  4 <> 0 /\ paired (tracks mid) = [] /\
  midi_to_chart mid "chart.txt" [60; 61; 62; 63] 4 4 w =
    ({| stdout := ["No notes found"]; files := ∅ |}, Ok ()).
Proof.
  intros mid w.
  assert (H4 : 4 <> 0) by lia.
  assert (Hnone : paired (tracks mid) = []) by reflexivity.
  split; [exact H4|]. split; [exact Hnone|].
  exact (proj1 (no_notes_found mid "chart.txt" [60; 61; 62; 63] 4 4 w
                  H4 Hnone)).
Defined.

(** C9: with 1 <= ticks_per_beat < subdivision the step size is 0, every
    quantization by it raises ZeroDivisionError instead of returning a
    step, and an encoder run that has paired at least one interval stops
    with that error, before any file is written. *)
Theorem zero_step_size_raises (mid : MidiFile) (output_path : string)
    (lane_notes : list Z) (subdivision rows_per_step : Z) (w : World) :
  1 <= ticks_per_beat mid < subdivision ->
  floordiv (ticks_per_beat mid) subdivision = Ok 0 /\
  (forall tick, quantize tick 0 = Raise ZeroDivisionError) /\
  (paired (tracks mid) <> [] ->
   midi_to_chart mid output_path lane_notes subdivision rows_per_step w =
     (w, Raise ZeroDivisionError)).
Proof.
  intros Hsmall. split_and!.
  - rewrite floordiv_ok by lia. by rewrite Z.div_small by lia.
  - done.
  - intros Hsome. unfold midi_to_chart.
    rewrite floordiv_ok by lia. rewrite Z.div_small by lia.
    destruct (paired (tracks mid)) as [|iv ivs]; [done|].
    by unfold build_chart, chart_rows.
Qed.

Lemma zero_step_size_raises_witness :
  let mid := {| ticks_per_beat := 3;
                tracks := [[note_on 60 64 0; note_off 60 0 2]] |} in
  let w := {| stdout := []; files := ∅ |} in
  1 <= ticks_per_beat mid < 4 /\
  paired (tracks mid) <> [] /\
  midi_to_chart mid "chart.txt" [60; 61; 62; 63] 4 4 w =
    (w, Raise ZeroDivisionError).
Proof.
  intros mid w.
  assert (Hsmall : 1 <= ticks_per_beat mid < 4) by (simpl; lia).
  assert (Hsome : paired (tracks mid) <> []) by (vm_compute; discriminate).
  split; [exact Hsmall|]. split; [exact Hsome|].
  exact (proj2 (proj2 (zero_step_size_raises mid "chart.txt"
                         [60; 61; 62; 63] 4 4 w Hsmall)) Hsome).
Defined.

(** * Further properties of the encoder *)

(** ** Counting intervals *)

Lemma close_note_count st n t :
  (length (notes (close_note st n t)) + size (active (close_note st n t))
     <= length (notes st) + size (active st))%nat /\
  (length (notes (close_note st n t)) <= S (length (notes st)))%nat.
Proof.
  unfold close_note. destruct (active st !! n) as [s|] eqn:E; simpl; [|lia].
  rewrite length_app, map_size_delete, E; simpl.
  assert (size (active st) <> 0%nat).
  { intros H0%map_size_empty_inv. rewrite H0 in E. by rewrite lookup_empty in E. }
  lia.
Qed.

Lemma pair_msg_count acc m :
  (length (notes (pair_msg acc m).1) + size (active (pair_msg acc m).1)
     <= length (notes acc.1) + size (active acc.1)
        + (if is_opener m then 1 else 0))%nat /\
  (length (notes (pair_msg acc m).1)
     <= length (notes acc.1) + (if is_closer m then 1 else 0))%nat.
Proof.
  destruct acc as [st t], m as [n v d|n v d|d]; simpl.
  - destruct (close_note_count st n (t + d)) as [H1 H2].
    repeat case_decide; repeat case_bool_decide; simpl; try lia.
    rewrite map_size_insert. destruct (active st !! n); simpl; lia.
  - destruct (close_note_count st n (t + d)) as [H1 H2]. lia.
  - lia.
Qed.

Lemma pair_msgs_count tr : forall acc,
  (length (notes (foldl pair_msg acc tr).1)
     + size (active (foldl pair_msg acc tr).1)
     <= length (notes acc.1) + size (active acc.1)
        + count_msgs is_opener tr)%nat /\
  (length (notes (foldl pair_msg acc tr).1)
     <= length (notes acc.1) + count_msgs is_closer tr)%nat.
Proof.
  induction tr as [|m tr IH]; intros acc; cbn [foldl].
  - unfold count_msgs; simpl. lia.
  - destruct (IH (pair_msg acc m)) as [H1 H2].
    destruct (pair_msg_count acc m) as [H3 H4].
    unfold count_msgs in *. simpl.
    destruct (is_opener m), (is_closer m); simpl; lia.
Qed.

Lemma pair_tracks_count trs : forall st,
  (length (notes (foldl pair_track st trs))
     + size (active (foldl pair_track st trs))
     <= length (notes st) + size (active st)
        + count_msgs is_opener (concat trs))%nat /\
  (length (notes (foldl pair_track st trs))
     <= length (notes st) + count_msgs is_closer (concat trs))%nat.
Proof.
  induction trs as [|tr trs IH]; intros st; cbn [foldl].
  - unfold count_msgs; simpl. lia.
  - destruct (IH (pair_track st tr)) as [H1 H2].
    destruct (pair_msgs_count tr (st, 0)) as [H3 H4].
    unfold pair_track in *. simpl in *.
    unfold count_msgs in *. rewrite !List.filter_app, !length_app. lia.
Qed.

(** X1: each interval uses up one opening event and one closing event:
    the intervals of a file, together with the notes still pending at its
    end, are at most its opening events, and the intervals are at most its
    closing events. *)
Theorem paired_count_bounds (trs : list (list Msg)) :
  (length (paired trs) + size (active (pair_tracks trs))
     <= count_msgs is_opener (concat trs))%nat /\
  (length (paired trs) <= count_msgs is_closer (concat trs))%nat.
Proof.
  unfold paired, pair_tracks.
  destruct (pair_tracks_count trs init_state) as [H1 H2].
  simpl in *. rewrite map_size_empty in H1. lia.
Qed.

(** ** Intervals of one note within a track *)

Lemma sequence_inv_tick st t d :
  0 <= d -> sequence_inv (st, t) -> sequence_inv (st, t + d).
Proof.
  intros Hd (HA & HB & HC). split_and!; simpl in *; [| |done].
  - eapply Forall_impl; [exact HA|]. simpl; intros; lia.
  - eapply map_Forall_impl; [exact HB|]. simpl. intros n s [? ?].
    split; [lia|done].
Qed.

Lemma close_note_sequence st t n :
  sequence_inv (st, t) -> sequence_inv (close_note st n t, t).
Proof.
  intros (HA & HB & HC). unfold close_note.
  destruct (active st !! n) as [s|] eqn:E; [|done].
  destruct (HB n s E) as [Hs Hn]. simpl in *.
  split_and!; simpl.
  - apply Forall_app. split; [done|]. apply Forall_singleton.
    unfold end_tick; simpl. lia.
  - intros m sm [Hne Hm]%lookup_delete_Some. destruct (HB m sm Hm) as [? Hall].
    split; [done|]. apply Forall_app. split; [done|].
    apply Forall_singleton. unfold iv_note; simpl. congruence.
  - intros i j a b Hij Ha Hb Hab.
    destruct (decide (j < length (notes st))%nat) as [Hj|Hj].
    + rewrite lookup_app_l in Ha, Hb by lia.
      exact (HC i j a b Hij Ha Hb Hab).
    + rewrite lookup_app_r in Hb by lia.
      destruct (j - length (notes st))%nat as [|k] eqn:Ek; [|done].
      injection Hb as <-.
      rewrite lookup_app_l in Ha by lia.
      rewrite Forall_forall in Hn. unfold start_tick; simpl.
      apply Hn; [by eapply list_elem_of_lookup_2|done].
Qed.

Lemma pair_msg_sequence acc m :
  0 <= msg_time m -> sequence_inv acc -> sequence_inv (pair_msg acc m).
Proof.
  destruct acc as [st t]. intros Hd Hinv.
  pose proof (sequence_inv_tick st t (msg_time m) Hd Hinv) as Hinv'.
  destruct m as [n v d|n v d|d]; simpl in *.
  - repeat case_decide; [|by apply close_note_sequence|done].
    destruct Hinv' as (HA & HB & HC). split_and!; simpl in *; [done| |done].
    apply map_Forall_insert_2; [|done]. split; [lia|].
    eapply Forall_impl; [exact HA|]. simpl; intros; lia.
  - by apply close_note_sequence.
  - done.
Qed.

Lemma pair_msgs_sequence tr : forall acc,
  Forall (fun m => 0 <= msg_time m) tr ->
  sequence_inv acc -> sequence_inv (foldl pair_msg acc tr).
Proof.
  induction tr as [|m tr IH]; intros acc Hd Hinv; cbn [foldl]; [done|].
  inversion_clear Hd. apply IH; [done|]. by apply pair_msg_sequence.
Qed.

(** X2: within one track with non-negative deltas, the intervals of a note
    never overlap or nest: a later interval of the note starts at or after
    the end of every earlier one. *)
Theorem track_intervals_in_sequence (track : list Msg) :
  Forall (fun m => 0 <= msg_time m) track ->
  same_note_in_sequence (notes (pair_alone track)).
Proof.
  intros Hd. unfold pair_alone, pair_track.
  apply (pair_msgs_sequence track (init_state, 0)); [done|].
  split_and!; simpl; [done|apply map_Forall_empty|].
  intros i j a b _ Ha. by rewrite lookup_nil in Ha.
Qed.

Lemma track_intervals_in_sequence_witness :
  let track := [note_on 60 64 0; note_on 60 64 10; note_off 60 0 20;
                note_on 60 64 0; note_off 60 0 5] in
  Forall (fun m => 0 <= msg_time m) track /\
  notes (pair_alone track) = [(10, 30, 60); (30, 35, 60)] /\
  end_tick (10, 30, 60) <= start_tick (30, 35, 60).
Proof.
  intros track.
  assert (Hd : Forall (fun m => 0 <= msg_time m) track).
  { unfold track. repeat constructor; simpl; lia. }
  split; [exact Hd|]. split; [reflexivity|].
  apply (track_intervals_in_sequence track Hd 0%nat 1%nat); reflexivity || lia.
Defined.

Lemma pair_msg_open st t n v d :
  v > 0 ->
  pair_msg (st, t) (note_on n v d) =
  ({| active := <[n := t + d]> (active st); notes := notes st |}, t + d).
Proof. intros Hv. simpl. by rewrite decide_True. Qed.

(** X3: a pending start is overwritten, not stacked: an on-event directly
    followed by another on-event for the same note acts as a message that
    only lets its delta time pass. *)
Theorem repeated_note_on_overwrites
    (acc : PairState * Z) (note v1 d1 v2 d2 : Z) (rest : list Msg) :
  v1 > 0 -> v2 > 0 ->
  foldl pair_msg acc (note_on note v1 d1 :: note_on note v2 d2 :: rest) =
  foldl pair_msg acc (other_msg d1 :: note_on note v2 d2 :: rest).
Proof.
  intros H1 H2. destruct acc as [st t]. cbn [foldl]. f_equal.
  rewrite (pair_msg_open st t note v1 d1) by done.
  change (pair_msg (st, t) (other_msg d1)) with (st, t + d1).
  rewrite !pair_msg_open by done. simpl.
  by rewrite insert_insert_eq.
Qed.

Lemma repeated_note_on_overwrites_witness :
  foldl pair_msg (init_state, 0)
        [note_on 60 64 5; note_on 60 70 7; note_off 60 0 8] =
  foldl pair_msg (init_state, 0)
        [other_msg 5; note_on 60 70 7; note_off 60 0 8].
Proof.
  apply (repeated_note_on_overwrites (init_state, 0) 60 64 5 70 7); lia.
Defined.

Lemma only_openings_pair_nothing_witness :
  let trs := [[note_on 60 64 0; other_msg 3]; [note_on 61 1 9]] in
  Forall (Forall opens_only) trs /\ paired trs = [].
Proof.
  intros trs.
  assert (H : Forall (Forall opens_only) trs).
  { unfold trs. repeat constructor; simpl; lia. }
  split; [exact H|]. exact (only_openings_pair_nothing trs H).
Defined.


(** ** The chart, cell by cell *)

Lemma paint_notes_cells (lane_notes : list Z) (tps rps num_rows : Z)
    (ivs : list NoteInterval) :
  length lane_notes = 4%nat -> 0 < tps -> 0 < rps ->
  forall chart,
    well_formed chart -> length chart = Z.to_nat num_rows ->
    Forall (fun iv => 0 <= start_tick iv) ivs ->
    Forall (fun iv => end_row tps rps iv <= num_rows) ivs ->
    exists chart',
      for_each (paint_note lane_notes tps rps num_rows) chart ivs = Ok chart' /\
      well_formed chart' /\ length chart' = length chart /\
      forall r l v,
        cell chart r l = Some v ->
        cell chart' r l = Some (foldl (overlay lane_notes tps rps r l) v ivs).
Proof.
  intros Hlanes Htps Hrps.
  induction ivs as [|iv ivs IH]; intros chart Hwf Hlen Hs Hend.
  - exists chart. by split_and!.
  - inversion_clear Hs as [|? ? Hiv Hivs].
    inversion_clear Hend as [|? ? Hiv_end Hivs_end]. cbn [for_each foldl].
    destruct (paint_note_spec lane_notes tps rps Hlanes Htps Hrps
                num_rows chart iv)
      as (chart1 & -> & Hwf1 & Hlen1 & Hcell1); [done..|].
    destruct (IH chart1) as (chart' & Hrun & Hwf' & Hlen' & Hcell');
      [done|congruence|done|done|].
    exists chart'. split_and!; [done|done|congruence|].
    intros r l v Hv. apply Hcell'. rewrite Hcell1, Hv. unfold overlay.
    repeat case_decide; try done; exfalso.
    + naive_solver.
    + unfold covers in *. naive_solver lia.
Qed.

Lemma empty_chart_cell (num_rows r : Z) (l : nat) :
  0 <= r < num_rows -> (l < 4)%nat ->
  cell (empty_chart num_rows) r l = Some NONE.
Proof.
  intros Hr Hl. unfold cell, empty_chart. rewrite decide_True by lia.
  rewrite lookup_replicate_2 by lia. simpl.
  by do 4 (destruct l as [|l]; [done|]); lia.
Qed.

Lemma build_chart_spec (lane_notes : list Z) (tps rps : Z)
    (ivs : list NoteInterval) :
  length lane_notes = 4%nat -> 0 < tps -> 0 < rps ->
  ivs <> [] -> Forall (fun iv => 0 <= start_tick iv) ivs ->
  exists chart max_tick,
    py_max (end_tick <$> ivs) = Ok max_tick /\
    chart_rows tps rps ivs = Ok ((max_tick `div` tps + 1) * rps) /\
    build_chart lane_notes tps rps ivs = Ok chart /\
    well_formed chart /\
    length chart = Z.to_nat ((max_tick `div` tps + 1) * rps) /\
    forall r l,
      0 <= r < (max_tick `div` tps + 1) * rps -> (l < 4)%nat ->
      cell chart r l = Some (expected_cell lane_notes tps rps ivs r l).
Proof.
  intros Hlanes Htps Hrps Hne Hs.
  destruct (chart_rows_spec tps rps Htps ivs Hne)
    as (max_tick & Hpy & _ & Hmax & Hrows).
  set (num_rows := (max_tick `div` tps + 1) * rps) in *.
  destruct (empty_chart_well_formed num_rows) as (Hwf & Hlen & _).
  destruct (paint_notes_cells lane_notes tps rps num_rows
              ivs Hlanes Htps Hrps (empty_chart num_rows) Hwf Hlen Hs)
    as (chart & Hrun & Hwf' & Hlen' & Hcell).
  { apply Forall_forall. intros iv Hiv. pose proof (Hmax iv Hiv) as Hle.
    pose proof (Z.div_le_mono _ _ tps Htps Hle).
    unfold end_row, num_rows. nia. }
  exists chart, max_tick. split_and!; [done|done| |done| |].
  - unfold build_chart. rewrite Hrows. simpl. exact Hrun.
  - by rewrite Hlen', Hlen.
  - intros r l Hr Hl. apply Hcell. by apply empty_chart_cell.
Qed.

(** X5: the chart is fully determined: for a non-empty interval list with
    non-negative start ticks, positive step and row sizes and four lanes,
    building succeeds, the chart has
    (floor(max_end_tick / ticks_per_step) + 1) * rows_per_step rows, and
    each of its cells holds the code of the last interval of the list that
    covers it, or NONE when no interval does. *)
Theorem build_chart_cells (lane_notes : list Z)
    (ticks_per_step rows_per_step : Z) (ivs : list NoteInterval) :
  length lane_notes = 4%nat -> 0 < ticks_per_step -> 0 < rows_per_step ->
  ivs <> [] -> Forall (fun iv => 0 <= start_tick iv) ivs ->
  exists chart num_rows,
    chart_rows ticks_per_step rows_per_step ivs = Ok num_rows /\
    build_chart lane_notes ticks_per_step rows_per_step ivs = Ok chart /\
    length chart = Z.to_nat num_rows /\
    forall r l,
      0 <= r < num_rows -> (l < 4)%nat ->
      cell chart r l =
      Some (expected_cell lane_notes ticks_per_step rows_per_step ivs r l).
Proof.
  intros Hlanes Htps Hrps Hne Hs.
  destruct (build_chart_spec lane_notes ticks_per_step rows_per_step ivs)
    as (chart & max_tick & _ & Hrows & Hrun & _ & Hlen & Hcell); [done..|].
  by exists chart, ((max_tick `div` ticks_per_step + 1) * rows_per_step).
Qed.

Lemma build_chart_cells_witness :
  exists chart num_rows,
    chart_rows 120 4 [(0, 480, 60); (240, 600, 61); (240, 600, 60)]
      = Ok num_rows /\
    build_chart [60; 61; 62; 63] 120 4
                [(0, 480, 60); (240, 600, 61); (240, 600, 60)] = Ok chart /\
    num_rows = 24 /\
    cell chart 8 0 = Some HEAD /\ cell chart 23 1 = Some NONE.
Proof.
  destruct (build_chart_cells [60; 61; 62; 63] 120 4
              [(0, 480, 60); (240, 600, 61); (240, 600, 60)])
    as (chart & num_rows & Hrows & Hrun & _ & Hcell).
  - reflexivity.
  - lia.
  - lia.
  - discriminate.
  - repeat constructor; vm_compute; discriminate.
  - assert (Hn : num_rows = 24) by (vm_compute in Hrows; congruence).
    exists chart, num_rows. split; [exact Hrows|]. split; [exact Hrun|].
    split; [exact Hn|].
    split; [apply (Hcell 8 0%nat)|apply (Hcell 23 1%nat)]; lia.
Defined.

Lemma div_block (b a r : Z) :
  0 < b -> (a * b <= r <-> a <= r `div` b) /\ (r < a * b <-> r `div` b < a).
Proof.
  intros Hb. pose proof (Z.div_mod r b ltac:(lia)).
  pose proof (Z.mod_pos_bound r b Hb). split; split; intros; nia.
Qed.

Lemma overlay_same_step (lane_notes : list Z) (tps rps r r' : Z) (l : nat)
    (v : Z) (iv : NoteInterval) :
  0 < rps -> r `div` rps = r' `div` rps ->
  overlay lane_notes tps rps r l v iv = overlay lane_notes tps rps r' l v iv.
Proof.
  intros Hrps Hq. unfold overlay, covers, row_code, start_row, end_row.
  set (s := start_tick iv `div` tps). set (e := end_tick iv `div` tps).
  destruct (div_block rps s r Hrps) as [Hs1 _].
  destruct (div_block rps s r' Hrps) as [Hs2 _].
  destruct (div_block rps e r Hrps) as [_ He1].
  destruct (div_block rps e r' Hrps) as [_ He2].
  destruct (div_block rps (s + 1) r Hrps) as [_ Hc1].
  destruct (div_block rps (s + 1) r' Hrps) as [_ Hc2].
  replace (s * rps + rps) with ((s + 1) * rps) by lia.
  repeat case_decide; try done; exfalso; naive_solver lia.
Qed.

Lemma expected_cell_same_step (lane_notes : list Z) (tps rps r r' : Z)
    (l : nat) (ivs : list NoteInterval) :
  0 < rps -> r `div` rps = r' `div` rps ->
  expected_cell lane_notes tps rps ivs r l =
  expected_cell lane_notes tps rps ivs r' l.
Proof.
  intros Hrps Hq. unfold expected_cell. generalize NONE.
  induction ivs as [|iv ivs IH]; intros v; cbn [foldl]; [done|].
  rewrite (overlay_same_step lane_notes tps rps r r' l v iv) by done.
  apply IH.
Qed.

Lemma cell_out_of_chart (chart : list (list Z)) (r : Z) (l : nat) :
  well_formed chart ->
  Z.of_nat (length chart) <= r \/ (4 <= l)%nat -> cell chart r l = None.
Proof.
  intros Hwf Hout. unfold cell. case_decide; [|done].
  destruct (chart !! Z.to_nat r) as [row|] eqn:E; [|done]. simpl.
  destruct Hout as [Hr|Hl].
  - apply lookup_lt_Some in E. lia.
  - unfold well_formed in Hwf. rewrite Forall_lookup in Hwf.
    apply lookup_ge_None. rewrite (Hwf _ _ E). lia.
Qed.

(** X6: the rows of one step are copies of each other: in the chart built
    from such a list, two rows with the same quotient by rows_per_step hold
    the same value in every lane. *)
Theorem rows_of_a_step_are_equal (lane_notes : list Z)
    (ticks_per_step rows_per_step : Z) (ivs : list NoteInterval) :
  length lane_notes = 4%nat -> 0 < ticks_per_step -> 0 < rows_per_step ->
  ivs <> [] -> Forall (fun iv => 0 <= start_tick iv) ivs ->
  exists chart,
    build_chart lane_notes ticks_per_step rows_per_step ivs = Ok chart /\
    forall r r' l,
      0 <= r -> 0 <= r' ->
      r `div` rows_per_step = r' `div` rows_per_step ->
      cell chart r l = cell chart r' l.
Proof.
  intros Hlanes Htps Hrps Hne Hs.
  destruct (build_chart_spec lane_notes ticks_per_step rows_per_step ivs)
    as (chart & max_tick & _ & _ & Hrun & Hwf & Hlen & Hcell); [done..|].
  exists chart. split; [done|]. intros r r' l Hr Hr' Hq.
  set (n := max_tick `div` ticks_per_step + 1) in *.
  destruct (div_block rows_per_step n r Hrps) as [_ Hb].
  destruct (div_block rows_per_step n r' Hrps) as [_ Hb'].
  destruct (decide (r < n * rows_per_step /\ (l < 4)%nat)) as [[Hin Hl]|Hout].
  - rewrite !Hcell by (done || lia).
    by rewrite (expected_cell_same_step _ _ _ r r').
  - rewrite !cell_out_of_chart; [done|done| |done|]; lia.
Qed.

Lemma rows_of_a_step_are_equal_witness :
  exists chart,
    build_chart [60; 61; 62; 63] 120 4 [(0, 480, 60); (130, 250, 62)]
      = Ok chart /\
    cell chart 4 2 = cell chart 7 2.
Proof.
  destruct (rows_of_a_step_are_equal [60; 61; 62; 63] 120 4
              [(0, 480, 60); (130, 250, 62)])
    as (chart & Hrun & Hsame).
  - reflexivity.
  - lia.
  - lia.
  - discriminate.
  - repeat constructor; vm_compute; discriminate.
  - exists chart. split; [exact Hrun|].
    apply Hsame; [lia|lia|reflexivity].
Defined.

Lemma expected_cell_none (lane_notes : list Z) (tps rps r : Z) (l : nat)
    (ivs : list NoteInterval) :
  expected_cell lane_notes tps rps ivs r l = NONE <->
  Forall (fun iv => ~ covers lane_notes tps rps iv r l) ivs.
Proof.
  unfold expected_cell.
  induction ivs as [|iv ivs IH] using rev_ind; [done|].
  rewrite foldl_app, Forall_app, Forall_singleton. cbn [foldl].
  unfold overlay at 1. case_decide as Hc.
  - unfold row_code, NONE, HEAD, TAIL. case_decide; split; naive_solver.
  - rewrite IH. naive_solver.
Qed.

(** X7: a cell inside the chart is empty exactly when no interval of the
    list covers it; a covered cell holds HEAD or TAIL. *)
Theorem cell_none_iff_uncovered (lane_notes : list Z)
    (ticks_per_step rows_per_step : Z) (ivs : list NoteInterval) :
  length lane_notes = 4%nat -> 0 < ticks_per_step -> 0 < rows_per_step ->
  ivs <> [] -> Forall (fun iv => 0 <= start_tick iv) ivs ->
  exists chart,
    build_chart lane_notes ticks_per_step rows_per_step ivs = Ok chart /\
    forall r l,
      0 <= r < Z.of_nat (length chart) -> (l < 4)%nat ->
      (cell chart r l = Some NONE <->
       Forall (fun iv => ~ covers lane_notes ticks_per_step rows_per_step
                                  iv r l) ivs) /\
      (cell chart r l = Some NONE \/ cell chart r l = Some TAIL \/
       cell chart r l = Some HEAD).
Proof.
  intros Hlanes Htps Hrps Hne Hs.
  destruct (build_chart_spec lane_notes ticks_per_step rows_per_step ivs)
    as (chart & max_tick & _ & _ & Hrun & Hwf & Hlen & Hcell); [done..|].
  exists chart. split; [done|]. intros r l Hr Hl.
  rewrite Hcell by lia. split.
  - rewrite <- expected_cell_none. split; [by intros [= ->]|by intros ->].
  - pose proof (build_chart_valid _ _ _ _ _ Hrun) as Hval.
    assert (Hcode : is_code (expected_cell lane_notes ticks_per_step
                               rows_per_step ivs r l)).
    { pose proof (Hcell r l ltac:(lia) Hl) as Hc. unfold cell in Hc.
      rewrite decide_True in Hc by lia.
      destruct (chart !! Z.to_nat r) as [row|] eqn:E; [|done]. simpl in Hc.
      rewrite Forall_lookup in Hval. destruct (Hval _ _ E) as [_ Hcodes].
      rewrite Forall_lookup in Hcodes. by eapply Hcodes. }
    destruct Hcode as [-> | [-> | ->] ]; auto.
Qed.

Lemma cell_none_iff_uncovered_witness :
  exists chart,
    build_chart [60; 61; 62; 63] 120 4 [(0, 240, 60); (0, 100, 61)]
      = Ok chart /\
    cell chart 3 1 = Some NONE.
Proof.
  destruct (cell_none_iff_uncovered [60; 61; 62; 63] 120 4
              [(0, 240, 60); (0, 100, 61)])
    as (chart & Hrun & Hcells).
  - reflexivity.
  - lia.
  - lia.
  - discriminate.
  - repeat constructor; vm_compute; discriminate.
  - exists chart. split; [exact Hrun|].
    assert (Hlen : length chart = 12%nat).
    { vm_compute in Hrun. injection Hrun as <-. reflexivity. }
    apply (Hcells 3 1%nat); [lia|lia|].
    repeat constructor; vm_compute; intros [H1 [H2 H3] ]; congruence.
Defined.

(** ** Intervals that leave no mark *)





(** ** A lane beyond the fourth *)

Lemma set_cell_bad_lane (chart : list (list Z)) (r : Z) (lane : nat) (v : Z) :
  well_formed chart -> 0 <= r < Z.of_nat (length chart) -> (4 <= lane)%nat ->
  set_cell chart r lane v = Raise IndexError.
Proof.
  intros Hwf Hr Hl. unfold set_cell.
  rewrite py_index_in_range by done. simpl.
  destruct (lookup_lt_is_Some_2 chart (Z.to_nat r)) as [row Hrow]; [lia|].
  rewrite Hrow.
  assert (Hlen : length row = 4%nat).
  { unfold well_formed in Hwf. rewrite Forall_lookup in Hwf. eauto. }
  unfold py_index. rewrite Hlen.
  rewrite decide_False by lia. by rewrite decide_False by lia.
Qed.

Lemma paint_row_bad_lane (num_rows srow rps : Z) (lane : nat)
    (chart : list (list Z)) (r : Z) :
  well_formed chart -> length chart = Z.to_nat num_rows ->
  0 <= r < num_rows -> (4 <= lane)%nat ->
  paint_row num_rows srow rps lane chart r = Raise IndexError.
Proof.
  intros Hwf Hlen Hr Hl. unfold paint_row. rewrite decide_True by lia.
  case_decide; apply set_cell_bad_lane; done || lia.
Qed.

Lemma paint_rows_bad_lane (num_rows srow rps : Z) (lane : nat) (rs : list Z)
    (chart : list (list Z)) :
  well_formed chart -> length chart = Z.to_nat num_rows ->
  Forall (fun r => 0 <= r) rs -> (4 <= lane)%nat ->
  (for_each (paint_row num_rows srow rps lane) chart rs = Ok chart /\
   Forall (fun r => num_rows <= r) rs) \/
  for_each (paint_row num_rows srow rps lane) chart rs = Raise IndexError.
Proof.
  intros Hwf Hlen Hrs Hl. induction Hrs as [|r rs Hr _ IH]; [by left|].
  cbn [for_each].
  assert (Hrow : (paint_row num_rows srow rps lane chart r = Ok chart /\
                  num_rows <= r) \/
                 paint_row num_rows srow rps lane chart r = Raise IndexError).
  { unfold paint_row. destruct (decide (r < num_rows)) as [Hlt|Hge].
    - right. case_decide; apply set_cell_bad_lane; done || lia.
    - left. split; [done|lia]. }
  destruct Hrow as [[-> Hge]| ->]; [|by right]. simpl.
  destruct IH as [[-> Hall]| ->]; [left|by right].
  split; [done|]. by constructor.
Qed.

(** Painting one interval either goes through, leaving a chart of the same
    shape, or stops on an index error. *)
Lemma paint_note_outcome (lane_notes : list Z) (tps rps num_rows : Z)
    (chart : list (list Z)) (iv : NoteInterval) :
  0 < tps -> 0 < rps ->
  well_formed chart -> length chart = Z.to_nat num_rows ->
  0 <= start_tick iv ->
  (exists chart',
     paint_note lane_notes tps rps num_rows chart iv = Ok chart' /\
     well_formed chart' /\ length chart' = length chart) \/
  paint_note lane_notes tps rps num_rows chart iv = Raise IndexError.
Proof.
  intros Htps Hrps Hwf Hlen Hs. unfold paint_note.
  case_bool_decide as Hin; [|left; by exists chart].
  destruct (index_spec lane_notes (iv_note iv)) as [Hex _].
  destruct (Hex Hin) as [lane ->]. simpl.
  unfold quantize. rewrite !floordiv_ok by lia. simpl.
  assert (Hrows : Forall (fun r => 0 <= r)
            (range (start_tick iv `div` tps * rps)
                   (end_tick iv `div` tps * rps))).
  { apply Forall_forall. intros r Hr%elem_of_seqZ.
    pose proof (start_row_nonneg tps rps Htps Hrps iv Hs) as H0.
    unfold start_row in H0. lia. }
  destruct (decide (lane < 4)%nat) as [Hl|Hl].
  - destruct (paint_rows_spec num_rows (start_tick iv `div` tps * rps) rps lane
                (range (start_tick iv `div` tps * rps)
                       (end_tick iv `div` tps * rps)) chart)
      as (chart' & Hrun & Hwf' & Hlen' & _); [done..|].
    left. by exists chart'.
  - destruct (paint_rows_bad_lane num_rows (start_tick iv `div` tps * rps) rps
                lane (range (start_tick iv `div` tps * rps)
                            (end_tick iv `div` tps * rps)) chart)
      as [[Hrun _]|Hrun]; [done|done|done|lia| |by right].
    left. by exists chart.
Qed.

Lemma paint_note_bad_lane (lane_notes : list Z) (tps rps num_rows : Z)
    (chart : list (list Z)) (iv : NoteInterval) :
  0 < tps -> 0 < rps ->
  well_formed chart -> length chart = Z.to_nat num_rows ->
  0 <= start_tick iv ->
  off_chart_lane lane_notes tps iv -> end_row tps rps iv <= num_rows ->
  paint_note lane_notes tps rps num_rows chart iv = Raise IndexError.
Proof.
  intros Htps Hrps Hwf Hlen Hs (lane & Hidx & Hl & Hsteps) Hend.
  unfold paint_note.
  destruct (index_spec lane_notes (iv_note iv)) as [_ Hin].
  destruct (Hin lane Hidx) as [Hmem _].
  rewrite bool_decide_eq_true_2 by done. rewrite Hidx. simpl.
  unfold quantize. rewrite !floordiv_ok by lia. simpl.
  pose proof (start_row_nonneg tps rps Htps Hrps iv Hs) as H0.
  unfold start_row, end_row in *.
  unfold range. rewrite seqZ_cons by nia. cbn [for_each].
  rewrite paint_row_bad_lane; [done|done|done| |done]. nia.
Qed.

Lemma paint_notes_bad_lane (lane_notes : list Z) (tps rps num_rows : Z)
    (ivs : list NoteInterval) :
  0 < tps -> 0 < rps ->
  Forall (fun iv => 0 <= start_tick iv) ivs ->
  Forall (fun iv => end_row tps rps iv <= num_rows) ivs ->
  Exists (off_chart_lane lane_notes tps) ivs ->
  forall chart,
    well_formed chart -> length chart = Z.to_nat num_rows ->
    for_each (paint_note lane_notes tps rps num_rows) chart ivs
      = Raise IndexError.
Proof.
  intros Htps Hrps Hs Hend Hbad.
  induction ivs as [|iv ivs IH]; intros chart Hwf Hlen.
  - by apply Exists_nil in Hbad.
  - inversion_clear Hs as [|? ? Hiv Hivs].
    inversion_clear Hend as [|? ? Hiv_end Hivs_end]. cbn [for_each].
    destruct (paint_note_outcome lane_notes tps rps num_rows chart iv)
      as [(chart' & Hrun & Hwf' & Hlen')|Hrun]; [done..| |by rewrite Hrun].
    rewrite Hrun. simpl.
    apply Exists_cons in Hbad as [Hbad|Hbad].
    + rewrite paint_note_bad_lane in Hrun by done. done.
    + apply IH; [done|done|done|done|congruence].
Qed.

(** X9: the rows have four lanes only: when lane_notes has more entries and
    a paired interval of a note at position 4 or later spans at least one
    step, the encoder stops with IndexError and writes no file. *)
Theorem fifth_lane_raises (mid : MidiFile) (output_path : string)
    (lane_notes : list Z) (subdivision rows_per_step : Z) (w : World) :
  nonneg_deltas (tracks mid) ->
  0 < subdivision <= ticks_per_beat mid -> 0 < rows_per_step ->
  Exists (off_chart_lane lane_notes (ticks_per_beat mid `div` subdivision))
         (paired (tracks mid)) ->
  midi_to_chart mid output_path lane_notes subdivision rows_per_step w =
    (w, Raise IndexError).
Proof.
  intros Hd Hsub Hrps Hbad. unfold midi_to_chart.
  rewrite floordiv_ok by lia.
  set (tps := ticks_per_beat mid `div` subdivision) in *.
  assert (Htps : 0 < tps) by (apply Z.div_str_pos; lia).
  pose proof (paired_ticks_nonneg _ Hd) as Hnn.
  destruct (paired (tracks mid)) as [|iv ivs] eqn:E;
    [by apply Exists_nil in Hbad|].
  destruct (chart_rows_spec tps rows_per_step Htps (iv :: ivs))
    as (max_tick & _ & _ & Hmax & Hrows); [done|].
  unfold build_chart. rewrite Hrows.
  unfold mbind, result_bind. cbv beta iota.
  destruct (empty_chart_well_formed
              ((max_tick `div` tps + 1) * rows_per_step)) as (Hwf & Hlen & _).
  rewrite (paint_notes_bad_lane lane_notes tps rows_per_step _ (iv :: ivs));
    try done.
  - eapply Forall_impl; [exact Hnn|]. by intros ? [? _].
  - apply Forall_forall. intros iv' Hiv'. pose proof (Hmax iv' Hiv') as Hle.
    pose proof (Z.div_le_mono _ _ tps Htps Hle). unfold end_row. nia.
Qed.

Lemma fifth_lane_raises_witness :
  let mid := {| ticks_per_beat := 480;
                tracks := [[note_on 60 64 0; note_off 60 0 240;
                            note_on 64 64 0; note_off 64 0 240]] |} in
  let w := {| stdout := []; files := ∅ |} in
  nonneg_deltas (tracks mid) /\
  midi_to_chart mid "chart.txt" [60; 61; 62; 63; 64] 4 4 w =
    (w, Raise IndexError).
Proof.
  intros mid w.
  assert (Hd : nonneg_deltas (tracks mid)).
  { unfold mid, nonneg_deltas. repeat constructor; simpl; lia. }
  split; [exact Hd|].
  apply (fifth_lane_raises mid "chart.txt" [60; 61; 62; 63; 64] 4 4 w Hd).
  - simpl; lia.
  - lia.
  - apply Exists_cons_tl, Exists_cons_hd. exists 4%nat.
    split; [reflexivity|]. split; [lia|]. vm_compute. reflexivity.
Defined.

(** ** Size of the written text *)






(** * Properties of the audio writer *)

Module SdAudioFacts.

Import SdAudio.

(** ** Padding *)

Lemma padding_needed_spec (raw_data : list Byte.byte) :
  0 <= padding_needed raw_data < 512 /\
  (Z.of_nat (length raw_data) + padding_needed raw_data) `mod` 512 = 0 /\
  (Z.of_nat (length raw_data) `mod` 512 = 0 -> padding_needed raw_data = 0).
Proof.
  unfold padding_needed, SECTOR_SIZE.
  generalize (Z.of_nat (length raw_data)). intros n.
  split_and!; try intros; Z.div_mod_to_equations; lia.
Qed.

Lemma pad_app (raw_data : list Byte.byte) :
  pad raw_data =
  raw_data ++ replicate (Z.to_nat (padding_needed raw_data)) Byte.x00.
Proof.
  unfold pad. case_decide as Hp; [done|].
  destruct (padding_needed_spec raw_data) as ([? ?] & _).
  replace (padding_needed raw_data) with 0 by lia. simpl.
  by rewrite app_nil_r.
Qed.

Lemma pad_length (raw_data : list Byte.byte) :
  Z.of_nat (length (pad raw_data)) =
  Z.of_nat (length raw_data) + padding_needed raw_data.
Proof.
  rewrite pad_app, length_app, length_replicate.
  destruct (padding_needed_spec raw_data) as ([? ?] & _). lia.
Qed.

Lemma padded_length_sectors (raw_data : list Byte.byte) :
  exists k : nat,
    length (pad raw_data) = (512 * k)%nat /\
    total_sectors raw_data = Z.of_nat k.
Proof.
  destruct (padding_needed_spec raw_data) as (_ & Hmod & _).
  pose proof (pad_length raw_data) as Hlen. rewrite <- Hlen in Hmod.
  exists (Z.to_nat (total_sectors raw_data)).
  unfold total_sectors, SECTOR_SIZE.
  revert Hmod. generalize (length (pad raw_data)). intros n Hmod.
  assert (0 <= Z.of_nat n `div` 512) by (apply Z.div_pos; lia).
  split; [|lia].
  apply Nat2Z.inj. rewrite Nat2Z.inj_mul, Z2Nat.id by done.
  Z.div_mod_to_equations. lia.
Qed.

(** X11: padding completes the last sector and no more: the padded data is
    the data followed by fewer than 512 zero bytes, its length is a multiple
    of 512, data that already fills its sectors is left as it is, and the
    sector count is the data length divided by 512, rounded up. *)
Theorem pad_completes_last_sector (raw_data : list Byte.byte) :
  pad raw_data =
    raw_data ++ replicate (Z.to_nat (padding_needed raw_data)) Byte.x00 /\
  0 <= padding_needed raw_data < 512 /\
  Z.of_nat (length (pad raw_data)) `mod` 512 = 0 /\
  (Z.of_nat (length raw_data) `mod` 512 = 0 -> pad raw_data = raw_data) /\
  total_sectors raw_data * 512 = Z.of_nat (length (pad raw_data)) /\
  total_sectors raw_data = (Z.of_nat (length raw_data) + 511) `div` 512.
Proof.
  destruct (padding_needed_spec raw_data) as (Hrange & Hmod & Hzero).
  pose proof (pad_length raw_data) as Hlen.
  split_and!.
  - apply pad_app.
  - lia.
  - lia.
  - by rewrite Hlen.
  - intros H0. rewrite pad_app, (Hzero H0). simpl. by rewrite app_nil_r.
  - unfold total_sectors, SECTOR_SIZE. rewrite Hlen.
    revert Hmod. generalize (Z.of_nat (length raw_data) + padding_needed raw_data).
    intros n Hn. Z.div_mod_to_equations. lia.
  - unfold total_sectors, SECTOR_SIZE. rewrite Hlen.
    revert Hrange Hmod. generalize (padding_needed raw_data).
    generalize (Z.of_nat (length raw_data)).
    intros n p Hrange Hmod. Z.div_mod_to_equations. lia.
Qed.

Lemma pad_completes_last_sector_witness :
  let raw_data := replicate 1024 Byte.x07 in
  Z.of_nat (length raw_data) `mod` 512 = 0 /\
  pad raw_data = raw_data /\ total_sectors raw_data = 2.
Proof.
  intros raw_data.
  assert (H0 : Z.of_nat (length raw_data) `mod` 512 = 0) by reflexivity.
  destruct (pad_completes_last_sector raw_data)
    as (_ & _ & _ & Hsame & _ & Hsectors).
  split; [exact H0|]. split; [exact (Hsame H0)|]. exact Hsectors.
Defined.

(** ** Writing the sectors *)

Lemma slice_sector (raw_data : list Byte.byte) (a : nat) :
  slice raw_data (Z.of_nat a) (Z.of_nat a + SECTOR_SIZE) =
  take 512 (drop a raw_data).
Proof.
  unfold slice, SECTOR_SIZE.
  replace (Z.to_nat (Z.of_nat a + 512 - Z.of_nat a)) with 512%nat by lia.
  by rewrite Nat2Z.id.
Qed.

Lemma f_write_sector (raw_data old : list Byte.byte) (f : File) (a : nat) :
  (a + 512 <= length raw_data)%nat ->
  pos f = a -> content f = take a raw_data ++ drop a old ->
  f_write f (take 512 (drop a raw_data)) =
  {| content := take (a + 512) raw_data ++ drop (a + 512) old;
     pos := (a + 512)%nat |}.
Proof.
  intros Ha Hpos Hcontent.
  assert (Hchunk : length (take 512 (drop a raw_data)) = 512%nat).
  { rewrite length_take, length_drop. lia. }
  assert (Htake : length (take a raw_data) = a).
  { rewrite length_take. lia. }
  unfold f_write. rewrite Hchunk, Hpos, Hcontent. f_equal.
  rewrite take_app_length' by done.
  replace (a - length (take a raw_data ++ drop a old))%nat with 0%nat
    by (rewrite length_app; lia).
  simpl. rewrite drop_app_ge by lia. rewrite Htake, drop_drop.
  replace (a + (a + 512 - a))%nat with (a + 512)%nat by lia.
  by rewrite app_assoc, take_take_drop.
Qed.

(** The loop, started at sector [i] of [k], ends within [k - i] rounds. *)
Lemma write_loop_sectors (raw_data old : list Byte.byte) (k : nat) :
  length raw_data = (512 * k)%nat ->
  forall (fuel i : nat) (f : File) (sector : Z),
    (i <= k)%nat -> (k - i < fuel)%nat ->
    pos f = (512 * i)%nat ->
    content f = take (512 * i) raw_data ++ drop (512 * i) old ->
    write_loop fuel raw_data (Z.of_nat (length raw_data)) f
               (Z.of_nat (512 * i)) sector =
    Some ({| content := raw_data ++ drop (length raw_data) old;
             pos := length raw_data |},
          Z.of_nat (length raw_data), sector + Z.of_nat (k - i)).
Proof.
  intros Hlen. induction fuel as [|fuel IH]; intros i f sector Hi Hfuel Hpos Hc.
  - lia.
  - cbn [write_loop]. destruct (decide (i < k)%nat) as [Hlt|Hge].
    + rewrite decide_True by lia.
      rewrite slice_sector.
      rewrite (f_write_sector raw_data old f (512 * i)) by (done || lia).
      replace (length (take 512 (drop (512 * i) raw_data))) with 512%nat
        by (rewrite length_take, length_drop; lia).
      replace (Z.of_nat (512 * i) + Z.of_nat 512)
        with (Z.of_nat (512 * S i)) by lia.
      replace (512 * i + 512)%nat with (512 * S i)%nat by lia.
      rewrite (IH (S i)) by (simpl; done || lia).
      do 2 f_equal. lia.
    + assert (i = k) as -> by lia.
      rewrite decide_False by lia.
      rewrite <- Hlen in Hpos, Hc. rewrite take_ge in Hc by lia.
      destruct f as [c p]; simpl in *; subst.
      rewrite Hlen. do 2 f_equal. lia.
Qed.

Lemma write_to_device_yes (raw_data : list Byte.byte)
    (device_path : string) (w : World) (rest : list string)
    (old : list Byte.byte) :
  stdin w = "YES" :: rest ->
  devices w !! device_path = Some old ->
  write_loop (S (length (pad raw_data))) (pad raw_data)
             (Z.of_nat (length (pad raw_data)))
             {| content := old; pos := 0 |} 0 0 =
    Some ({| content := pad raw_data ++ drop (length (pad raw_data)) old;
             pos := length (pad raw_data) |},
          total_sectors raw_data * SECTOR_SIZE, total_sectors raw_data) /\
  write_to_device raw_data device_path w =
    Some (Return (),
          {| stdin := rest;
             devices := <[device_path :=
                            pad raw_data ++ drop (length (pad raw_data)) old]>
                          (devices w) |}).
Proof.
  intros Hin Hdev.
  destruct (padded_length_sectors raw_data) as (k & Hk & Hsec).
  assert (Hloop :
    write_loop (S (length (pad raw_data))) (pad raw_data)
               (Z.of_nat (length (pad raw_data)))
               {| content := old; pos := 0 |} 0 0 =
    Some ({| content := pad raw_data ++ drop (length (pad raw_data)) old;
             pos := length (pad raw_data) |},
          Z.of_nat (length (pad raw_data)), 0 + Z.of_nat (k - 0))).
  { apply (write_loop_sectors (pad raw_data) old k Hk
             (S (length (pad raw_data))) 0 {| content := old; pos := 0 |} 0);
      simpl; done || lia. }
  split.
  - rewrite Hloop. do 2 f_equal; [f_equal|]; unfold SECTOR_SIZE; lia.
  - unfold write_to_device, input. rewrite Hin. cbv beta iota.
    rewrite decide_False by (intros H; by apply H).
    cbn [devices stdin]. rewrite Hdev, Hloop. done.
Qed.



Lemma write_to_device_cases (raw_data : list Byte.byte)
    (device_path : string) (w : World) :
  exists r w',
    write_to_device raw_data device_path w = Some (r, w') /\
    (forall p, p <> device_path -> devices w' !! p = devices w !! p) /\
    (head (stdin w) <> Some "YES" \/ devices w !! device_path = None ->
     r <> Return () /\ devices w' = devices w).
Proof.
  destruct (stdin w) as [|line rest] eqn:Hin.
  - exists (Uncaught EOFError), w. unfold write_to_device, input.
    rewrite Hin. split_and!; try done.
  - destruct (decide (line = "YES")) as [->|Hline].
    + destruct (devices w !! device_path) as [old|] eqn:Hdev.
      * destruct (write_to_device_yes raw_data device_path w rest old
                    Hin Hdev) as [_ ->].
        eexists _, _. split; [done|]. simpl. split.
        -- intros p Hp. by rewrite lookup_insert_ne.
        -- intros [H|H]; [by destruct H|done].
      * exists (SystemExit 1), {| stdin := rest; devices := devices w |}.
        unfold write_to_device, input. rewrite Hin. cbv beta iota.
        rewrite decide_False by (intros H; by apply H).
        cbn [devices stdin]. rewrite Hdev. split_and!; try done.
    + exists (SystemExit 1), {| stdin := rest; devices := devices w |}.
      unfold write_to_device, input. rewrite Hin. cbv beta iota.
      rewrite decide_True by done. split_and!; try done.
Qed.

(** X13: the call always ends (the write loop never needs more rounds
    than the data has bytes), it touches no device but the one named, and
    unless the line it reads is exactly YES and the device can be opened it
    does not return normally and leaves every device as it was. *)
Theorem write_to_device_guarded (raw_data : list Byte.byte)
    (device_path : string) (w : World) :
  exists r w',
    write_to_device raw_data device_path w = Some (r, w') /\
    (forall p, p <> device_path -> devices w' !! p = devices w !! p) /\
    (head (stdin w) <> Some "YES" \/ devices w !! device_path = None ->
     r <> Return () /\ devices w' = devices w).
Proof. apply write_to_device_cases. Qed.

Lemma write_to_device_guarded_witness :
  let w := {| stdin := ["yes"];
              devices := {[ "/dev/disk4" := [Byte.xff] ]} |} in
  head (stdin w) <> Some "YES" /\
  exists r w',
    write_to_device [Byte.x01] "/dev/disk4" w = Some (r, w') /\
    r <> Return () /\ devices w' = devices w.
Proof.
  intros w.
  assert (Hhead : head (stdin w) <> Some "YES") by (vm_compute; discriminate).
  split; [exact Hhead|].
  destruct (write_to_device_guarded [Byte.x01] "/dev/disk4" w)
    as (r & w' & Hrun & _ & Hsafe).
  exists r, w'. split; [exact Hrun|]. apply Hsafe. left. exact Hhead.
Defined.

(** ** Validating the device path *)

Lemma confirm_patterns_spec (patterns : list string) (device_path : string) :
  forall w w',
    confirm_patterns patterns device_path w = (Return (), w') <->
    stdin w = replicate (length (flagged patterns device_path)) risk_phrase
                ++ stdin w' /\
    devices w' = devices w.
Proof.
  induction patterns as [|pattern patterns IH]; intros w w'.
  - simpl. unfold ret. split.
    + by intros [= <-].
    + intros [Hin Hdev]. destruct w, w'; simpl in *. by subst.
  - cbn [confirm_patterns flagged List.filter].
    destruct (contains pattern device_path); [|apply IH].
    unfold and_then, input. destruct (stdin w) as [|line rest] eqn:Hin.
    + simpl. split; [done|]. by intros [? _].
    + cbv beta iota. destruct (decide (line = risk_phrase)) as [->|Hline].
      * rewrite decide_False by (intros H; by apply H).
        rewrite IH. simpl. split.
        -- intros [-> ?]. done.
        -- intros [[= ?] ?]. done.
      * rewrite decide_True by done. unfold sys_exit. simpl.
        split; [done|]. intros [[= ? ?] _]. done.
Qed.

(** X14: validation returns normally exactly when the path starts with
    /dev/ and the lines read are one risk phrase for each pattern of the
    list that occurs in the path; it reads nothing else and changes no
    device.  A path without any of the patterns is accepted without a
    prompt. *)
Theorem validate_returns_iff (device_path : string) (w w' : World) :
  validate_device_path device_path w = (Return (), w') <->
  String.prefix "/dev/" device_path = true /\
  stdin w =
    replicate (length (flagged dangerous_patterns device_path)) risk_phrase
      ++ stdin w' /\
  devices w' = devices w.
Proof.
  unfold validate_device_path.
  destruct (String.prefix "/dev/" device_path); cbn [negb].
  - rewrite confirm_patterns_spec. naive_solver.
  - unfold sys_exit. split; [done|]. by intros [? _].
Qed.

Lemma validate_returns_iff_witness :
  let w := {| stdin := [risk_phrase; risk_phrase; "YES"]; devices := ∅ |} in
  validate_device_path "/dev/disk0sda" w =
    (Return (), {| stdin := ["YES"]; devices := ∅ |}) /\
  validate_device_path "/dev/disk4" w = (Return (), w).
Proof.
  intros w. split.
  - apply (proj2 (validate_returns_iff "/dev/disk0sda" w
                    {| stdin := ["YES"]; devices := ∅ |})).
    split; [reflexivity|]. split; reflexivity.
  - apply (proj2 (validate_returns_iff "/dev/disk4" w w)).
    split; [reflexivity|]. split; reflexivity.
Defined.

Lemma prefix_app (p b : string) : String.prefix p (p +:+ b) = true.
Proof.
  induction p as [|c p IH].
  { change (String.prefix EmptyString b = true). by destruct b. }
  change (String.prefix (String c p) (String c (p +:+ b)) = true).
  simpl. by destruct (ascii_dec c c).
Qed.

Lemma contains_unfold (pattern s : string) :
  contains pattern s =
  String.prefix pattern s ||
  match s with
  | EmptyString => false
  | String _ s' => contains pattern s'
  end.
Proof. by destruct s. Qed.

(** [contains] finds the pattern wherever it occurs. *)
Lemma contains_app (before pattern after : string) :
  contains pattern (before +:+ pattern +:+ after) = true.
Proof.
  induction before as [|c before IH].
  - change (contains pattern (pattern +:+ after) = true).
    rewrite contains_unfold, prefix_app. done.
  - change (contains pattern (String c (before +:+ pattern +:+ after)) = true).
    rewrite contains_unfold, IH. by rewrite orb_true_r.
Qed.

(** X15: the patterns are looked for anywhere in the path, so a path such
    as /dev/disk10 counts as a system disk for holding disk1: whenever one
    of the five patterns occurs in the path, validation returns normally
    only if the first line read is the risk phrase. *)
Theorem pattern_anywhere_needs_phrase
    (pattern before after : string) (w w' : World) :
  pattern ∈ dangerous_patterns ->
  validate_device_path (before +:+ pattern +:+ after) w = (Return (), w') ->
  exists rest, stdin w = risk_phrase :: rest.
Proof.
  intros Hpat. unfold validate_device_path.
  destruct (String.prefix _ _); cbn [negb]; [|done].
  rewrite confirm_patterns_spec. intros [Hin _].
  assert (Hflag : In pattern
            (flagged dangerous_patterns (before +:+ pattern +:+ after))).
  { unfold flagged. apply List.filter_In. split.
    - by apply list_elem_of_In.
    - apply contains_app. }
  destruct (flagged dangerous_patterns (before +:+ pattern +:+ after))
    as [|x l]; [done|].
  simpl in Hin. by eexists.
Qed.

Lemma pattern_anywhere_needs_phrase_witness :
  let w := {| stdin := [risk_phrase]; devices := ∅ |} in
  let w' := {| stdin := []; devices := ∅ |} in
  "disk1" ∈ dangerous_patterns /\
  validate_device_path "/dev/disk10" w = (Return (), w') /\
  exists rest, stdin w = risk_phrase :: rest.
Proof.
  intros w w'.
  assert (Hpat : "disk1" ∈ dangerous_patterns) by (right; left).
  assert (Hrun : validate_device_path ("/dev/" +:+ "disk1" +:+ "0") w
                 = (Return (), w')) by reflexivity.
  split; [exact Hpat|]. split; [exact Hrun|].
  exact (pattern_anywhere_needs_phrase "disk1" "/dev/" "0" w w' Hpat Hrun).
Defined.

(** ** The two command lines *)

Lemma py_insert_before_last_two {A : Type} (l : list A) (a b x : A) :
  py_insert (l ++ [a; b]) (-2) x = l ++ [x; a; b].
Proof.
  unfold py_insert. rewrite decide_True by lia.
  rewrite length_app. simpl.
  replace (Z.to_nat (0 `max` (-2 + Z.of_nat (length l + 2))))
    with (length l) by lia.
  by rewrite take_app_length, drop_app_length.
Qed.

(** X16: two insertions at index -2 put the new elements, in order, before
    the last two of the list; in the soxr command line the filter option
    and its value therefore land between the option -f and its value s16le,
    not in front of -f. *)
Theorem soxr_filter_follows_format_option :
  (forall (A : Type) (l : list A) (a b x y : A),
     py_insert (py_insert (l ++ [a; b]) (-2) x) (-2) y = l ++ [x; y; a; b]) /\
  (forall input_file tmp_path : string,
     cmd_base input_file tmp_path =
       ["ffmpeg"; "-y"; "-i"; input_file; "-ac"; "1"; "-ar"; "46186";
        "-sample_fmt"; "s16"] ++ ["-f"; "s16le"; tmp_path] /\
     cmd_soxr input_file tmp_path =
       ["ffmpeg"; "-y"; "-i"; input_file; "-ac"; "1"; "-ar"; "46186";
        "-sample_fmt"; "s16"] ++
       ["-f"; "-af"; "aresample=resampler=soxr:precision=28"; "s16le";
        tmp_path]).
Proof.
  split.
  - intros A l a b x y. rewrite py_insert_before_last_two.
    replace (l ++ [x; a; b]) with ((l ++ [x]) ++ [a; b])
      by (by rewrite <- app_assoc).
    rewrite py_insert_before_last_two. by rewrite <- app_assoc.
  - intros input_file tmp_path. split; [reflexivity|].
    unfold cmd_soxr.
    change (cmd_base input_file tmp_path)
      with (["ffmpeg"; "-y"; "-i"; input_file; "-ac"; "1"; "-ar"; "46186";
             "-sample_fmt"; "s16"; "-f"] ++ ["s16le"; tmp_path]).
    rewrite py_insert_before_last_two.
    change (["ffmpeg"; "-y"; "-i"; input_file; "-ac"; "1"; "-ar"; "46186";
             "-sample_fmt"; "s16"; "-f"] ++ ["-af"; "s16le"; tmp_path])
      with (["ffmpeg"; "-y"; "-i"; input_file; "-ac"; "1"; "-ar"; "46186";
             "-sample_fmt"; "s16"; "-f"; "-af"] ++ ["s16le"; tmp_path]).
    by rewrite py_insert_before_last_two.
Qed.

(** ** The script as a whole *)










End SdAudioFacts.
